(** * libmatrix: the worker-side command server (src/libmatrix.cpp)

    A worker waits for a command code broadcast by the controller, runs the
    handler the code selects in [FTABLE], and repeats until the code is out of
    range.  Every handler is a fixed sequence of operations on the
    inter-group channel followed by an update of the process-wide registries
    [VECTORS], [MATRICES], [MAPS] and [GRAPHS].

    The development embeds the handlers, the event loop and [main] as
    programs of a state-and-error monad over the state of one worker
    process, and proves the properties of the command protocol about them. *)

From stdpp Require Import base numbers list strings pretty.

Local Open Scope Z_scope.

(** ** C types, their sizes and the matching MPI datatypes *)

(** [sizeof(long)] and [sizeof(size_t)] depend on the data model the program
    is built for; [int], [double] and [char] have the same size in all of
    ILP32, LLP64 and LP64. *)
Record data_model := { sizeof_long : Z; sizeof_size_t : Z }.

Definition sizeof_int : Z := 4.
Definition sizeof_double : Z := 8.
Definition sizeof_char : Z := 1.

Definition ILP32 : data_model := {| sizeof_long := 4; sizeof_size_t := 4 |}.
Definition LLP64 : data_model := {| sizeof_long := 4; sizeof_size_t := 8 |}.
Definition LP64 : data_model := {| sizeof_long := 8; sizeof_size_t := 8 |}.

Inductive ctype := c_double | c_int | c_long | c_size_t.

(** typedef double scalar_t; typedef int handle_t; typedef int local_t;
    typedef long global_t; *)
Definition scalar_t : ctype := c_double.
Definition handle_t : ctype := c_int.
Definition local_t : ctype := c_int.
Definition global_t : ctype := c_long.

Definition sizeof (dm : data_model) (t : ctype) : Z :=
  match t with
  | c_double => sizeof_double
  | c_int => sizeof_int
  | c_long => sizeof_long dm
  | c_size_t => sizeof_size_t dm
  end.

Inductive Datatype := MPI_CHAR | MPI_INT | MPI_LONG | MPI_DOUBLE.

(** The "matching mpi types" of the source. *)
Definition MPI_SCALAR : Datatype := MPI_DOUBLE.
Definition MPI_HANDLE : Datatype := MPI_INT.
Definition MPI_SIZE : Datatype := MPI_INT.
Definition MPI_LOCAL : Datatype := MPI_INT.
Definition MPI_GLOBAL : Datatype := MPI_LONG.

(** The number of bytes one element of an MPI datatype occupies in a
    message and in the buffer it is received into. *)
Definition Datatype_size (dm : data_model) (d : Datatype) : Z :=
  match d with
  | MPI_CHAR => sizeof_char
  | MPI_INT => sizeof_int
  | MPI_LONG => sizeof_long dm
  | MPI_DOUBLE => sizeof_double
  end.

(** Conversion to [int] (32 bits, two's complement), as in
    [handle_t imap = MAPS.size()] and [nitems += numcols_ptr[irow]]. *)
Definition to_int (z : Z) : Z := (z + 2 ^ 31) `mod` 2 ^ 32 - 2 ^ 31.

(** Conversion to [unsigned char], the type of the command code. *)
Definition to_uchar (z : Z) : Z := z `mod` 256.

(** ** Scalars

    [scalar_t] is [double].  The protocol only creates zeros and adds, so the
    development is stated over any type with these two operations. *)
Class Scalar (scalar : Type) := {
  scalar_zero : scalar;
  scalar_add : scalar → scalar → scalar
}.

(** The integers are an instance, used for concrete runs. *)
Global Instance Z_scalar : Scalar Z := {| scalar_zero := 0; scalar_add := Z.add |}.

Section libmatrix.

Context {scalar : Type} `{!Scalar scalar}.

(** ** The numerical library, as one process sees it

    Tpetra's objects are distributed; a worker only ever touches its own
    part.  The definitions below are the local part of each object and the
    operations the handlers call on it. *)

(** Modelled from the spec: the index space of the external numerical
    library ([Tpetra::Map]): [size] global elements, of which this worker
    owns the listed global identifiers. *)
Record map_t := {
  map_size : Z;
  map_elementList : list Z;
  map_indexBase : Z
}.

Definition indexBase : Z := 0.

(** [map->getNodeNumElements()] *)
Definition getNodeNumElements (m : map_t) : nat := length (map_elementList m).

Fixpoint index_of (g : Z) (l : list Z) : option nat :=
  match l with
  | [] => None
  | x :: l' => if bool_decide (x = g) then Some 0%nat else S <$> index_of g l'
  end.

(** The local index of a global identifier, when this worker owns it. *)
Definition getLocalElement (m : map_t) (g : Z) : option nat :=
  index_of g (map_elementList m).

(** Modelled from the spec: the distributed vector of the external numerical
    library ([Tpetra::Vector]): one slot per locally owned element of its
    map. *)
Record vector_t := {
  vector_map : map_t;
  vector_data : list scalar
}.

(** Modelled from the spec: [new vector_t( map )], a vector whose entries
    are all zero. *)
Definition vector_new (m : map_t) : vector_t :=
  {| vector_map := m;
     vector_data := replicate (getNodeNumElements m) scalar_zero |}.

(** Modelled from the spec: [vec->sumIntoGlobalValue( g, x )] adds [x] to
    the entry of global index [g]; there is no entry to add to when this
    worker does not own [g]. *)
Definition sumIntoGlobalValue (vec : vector_t) (g : Z) (x : scalar)
  : option vector_t :=
  lid ← getLocalElement (vector_map vec) g;
  old ← vector_data vec !! lid;
  Some {| vector_map := vector_map vec;
          vector_data := <[lid := scalar_add old x]> (vector_data vec) |}.

(** [vec->getData()]: all locally owned values. *)
Definition getData (vec : vector_t) : list scalar := vector_data vec.

(** Modelled from the spec: the connectivity graph of the external numerical
    library ([Tpetra::CrsGraph]) over a row map: the column indices of each
    locally owned row, the insertions addressed to rows of other workers
    (kept until the graph is sealed), and whether the graph is sealed. *)
Record graph_t := {
  graph_map : map_t;
  graph_numcols : list Z;
  graph_rows : list (list Z);
  graph_nonlocal : list (Z * list Z);
  graph_fillComplete : bool
}.

(** Modelled from the spec: [new graph_t( map, numcols )], an unsealed graph
    with no column indices. *)
Definition graph_new (m : map_t) (numcols : list Z) : graph_t :=
  {| graph_map := m;
     graph_numcols := numcols;
     graph_rows := replicate (getNodeNumElements m) [];
     graph_nonlocal := [];
     graph_fillComplete := false |}.

(** Modelled from the spec: [graph->insertGlobalIndices( globalRow, indices )]
    inserts column indices into a row of the unsealed graph.  In the
    library's interface the row is named by its global identifier, as the
    columns are: the indices go to the row of that identifier when this
    worker owns it, and are kept for the worker that owns it otherwise. *)
Definition insertGlobalIndices (g : graph_t) (globalRow : Z) (indices : list Z)
  : graph_t :=
  match getLocalElement (graph_map g) globalRow with
  | Some lrow =>
      {| graph_map := graph_map g;
         graph_numcols := graph_numcols g;
         graph_rows := alter (λ row, row ++ indices) lrow (graph_rows g);
         graph_nonlocal := graph_nonlocal g;
         graph_fillComplete := graph_fillComplete g |}
  | None =>
      {| graph_map := graph_map g;
         graph_numcols := graph_numcols g;
         graph_rows := graph_rows g;
         graph_nonlocal := graph_nonlocal g ++ [(globalRow, indices)];
         graph_fillComplete := graph_fillComplete g |}
  end.

(** Modelled from the spec: [graph->fillComplete()] seals the graph.  This
    is where the library hands the insertions kept for other workers to
    their owners; the local part keeps what this worker has inserted
    itself. *)
Definition fillComplete (g : graph_t) : graph_t :=
  {| graph_map := graph_map g;
     graph_numcols := graph_numcols g;
     graph_rows := graph_rows g;
     graph_nonlocal := graph_nonlocal g;
     graph_fillComplete := true |}.

(** Modelled from the spec: the sparse matrix of the external numerical
    library ([Tpetra::CrsMatrix]); its pattern is the graph it is built
    from. *)
Record matrix_t := { matrix_graph : graph_t }.

(** ** The state of a worker process *)

(** What a message carries: integers (of any integer datatype) or scalars. *)
Inductive buffer :=
  | ints (l : list Z)
  | doubles (l : list scalar).

(** The operations of the worker on the channel to the controller, with the
    datatype and the element count of the call; the root of every collective
    and the source of every receive is rank 0 of the controller's side. *)
Inductive op :=
  | Init
  | Bcast (d : Datatype) (count : Z)
  | Scatter (d : Datatype) (recvcount : Z)
  | Scatterv (d : Datatype) (recvcount : Z)
  | Gather (d : Datatype) (sendbuf : buffer)
  | Gatherv (d : Datatype) (sendbuf : buffer)
  | Recv (d : Datatype) (count : Z)
  | Disconnect
  | Finalize.

(** The four registries.  [VECTORS] holds reference-counted pointers to
    vector objects that [add_evec] updates in place, so its entries are
    addresses into [vector_heap]; maps and graphs are [const] and matrices
    are never written to, so those tables hold the objects themselves. *)
Record tables := {
  VECTORS : list nat;
  MATRICES : list matrix_t;
  MAPS : list map_t;
  GRAPHS : list graph_t
}.

Record world := {
  registry : tables;
  vector_heap : list vector_t;
  comm_rank : nat;          (* intercomm.Get_rank() *)
  inbox : list buffer;      (* what the controller sends to this worker *)
  trace : list op;          (* the channel operations completed so far *)
  cout : list string        (* the lines written to std::cout *)
}.

Definition empty_tables : tables :=
  {| VECTORS := []; MATRICES := []; MAPS := []; GRAPHS := [] |}.

(** The state of worker [r] at process start. *)
Definition start (r : nat) (msgs : list buffer) : world :=
  {| registry := empty_tables; vector_heap := []; comm_rank := r;
     inbox := msgs; trace := []; cout := [] |}.

Definition set_registry (f : tables → tables) (w : world) : world :=
  {| registry := f (registry w); vector_heap := vector_heap w;
     comm_rank := comm_rank w; inbox := inbox w; trace := trace w;
     cout := cout w |}.

Definition set_vector_heap (f : list vector_t → list vector_t) (w : world)
  : world :=
  {| registry := registry w; vector_heap := f (vector_heap w);
     comm_rank := comm_rank w; inbox := inbox w; trace := trace w;
     cout := cout w |}.

Definition set_inbox (msgs : list buffer) (w : world) : world :=
  {| registry := registry w; vector_heap := vector_heap w;
     comm_rank := comm_rank w; inbox := msgs; trace := trace w;
     cout := cout w |}.

Definition add_trace (o : op) (w : world) : world :=
  {| registry := registry w; vector_heap := vector_heap w;
     comm_rank := comm_rank w; inbox := inbox w; trace := trace w ++ [o];
     cout := cout w |}.

Definition add_cout (line : string) (w : world) : world :=
  {| registry := registry w; vector_heap := vector_heap w;
     comm_rank := comm_rank w; inbox := inbox w; trace := trace w;
     cout := cout w ++ [line] |}.

(** ** The monad of worker programs *)

(** What ends a worker abnormally.  None of them is caught anywhere in the
    program. *)
Inductive fault :=
  | InvalidHandle   (* a registry indexed outside its bounds *)
  | BadAlloc        (* an array of negative length *)
  | RangeError      (* a view outside its array *)
  | NotOwned        (* a value added at an index this worker does not own *)
  | ProtocolDesync  (* a message that is not of the shape the call expects *)
  | DanglingRCP.    (* a pointer to no vector object *)

(** A program returns, waits for ever for a message that does not come, or
    ends with a fault. *)
Inductive outcome (A : Type) :=
  | Ok (a : A) (w : world)
  | Blocked (w : world)
  | Fault (f : fault) (w : world).
Global Arguments Ok {A} a w.
Global Arguments Blocked {A} w.
Global Arguments Fault {A} f w.

Definition M (A : Type) : Type := world → outcome A.

Global Instance M_ret : MRet M := λ A a w, Ok a w.

Global Instance M_bind : MBind M := λ A B k m w,
  match m w with
  | Ok a w' => k a w'
  | Blocked w' => Blocked w'
  | Fault f w' => Fault f w'
  end.

Definition final {A} (r : outcome A) : world :=
  match r with Ok _ w | Blocked w | Fault _ w => w end.

Definition raise {A} (f : fault) : M A := λ w, Fault f w.
Definition get_world : M world := λ w, Ok w w.
Definition update (f : world → world) : M unit := λ w, Ok tt (f w).

(** *** Teuchos arrays *)

(** [table.size()] *)
Definition Array_size {A} (table : list A) : Z := Z.of_nat (length table).

(** [table[i]].  The source does not check the index: outside the bounds
    Teuchos throws where its bounds checking is compiled in and the access
    is undefined otherwise; nothing in the program catches either, and the
    worker is lost.  The spec names this failure InvalidHandle. *)
Definition Array_at {A} (table : list A) (i : Z) : M A :=
  if bool_decide (0 ≤ i) then
    match table !! Z.to_nat i with
    | Some x => mret x
    | None => raise InvalidHandle
    end
  else raise InvalidHandle.

(** [Teuchos::Array<T> a( n )] and [Teuchos::ArrayRCP<T> a( n )]: no array
    has a negative number of elements. *)
Definition Array_alloc (n : Z) : M unit :=
  if bool_decide (0 ≤ n) then mret tt else raise BadAlloc.

(** [items.view( offset, size )]; there is no view outside the array. *)
Definition view (items : list Z) (offset size : Z) : option (list Z) :=
  if bool_decide (0 ≤ offset ∧ 0 ≤ size ∧ offset + size ≤ Array_size items)
  then Some (take (Z.to_nat size) (drop (Z.to_nat offset) items))
  else None.

(** The value of an operation that has one, the fault [f] otherwise. *)
Definition or_raise {A} (f : fault) (o : option A) : M A :=
  match o with
  | Some x => mret x
  | None => raise f
  end.

(** *** The registries *)

Definition the_tables : M tables := w ← get_world; mret (registry w).

Definition VECTORS_push_back (p : nat) : M unit :=
  update (set_registry (λ t,
    {| VECTORS := VECTORS t ++ [p]; MATRICES := MATRICES t;
       MAPS := MAPS t; GRAPHS := GRAPHS t |})).

Definition MATRICES_push_back (m : matrix_t) : M unit :=
  update (set_registry (λ t,
    {| VECTORS := VECTORS t; MATRICES := MATRICES t ++ [m];
       MAPS := MAPS t; GRAPHS := GRAPHS t |})).

Definition MAPS_push_back (m : map_t) : M unit :=
  update (set_registry (λ t,
    {| VECTORS := VECTORS t; MATRICES := MATRICES t;
       MAPS := MAPS t ++ [m]; GRAPHS := GRAPHS t |})).

Definition GRAPHS_push_back (g : graph_t) : M unit :=
  update (set_registry (λ t,
    {| VECTORS := VECTORS t; MATRICES := MATRICES t;
       MAPS := MAPS t; GRAPHS := GRAPHS t ++ [g] |})).

(** [Teuchos::rcp( new vector_t( map ) )]: a new vector object, and the
    pointer to it. *)
Definition rcp_new_vector_t (m : map_t) : M nat :=
  w ← get_world;
  update (set_vector_heap (λ h, h ++ [vector_new m]));;
  mret (length (vector_heap w)).

(** [vec->getData()] through the pointer. *)
Definition rcp_getData (vec : nat) : M (list scalar) :=
  w ← get_world;
  match vector_heap w !! vec with
  | Some v => mret (getData v)
  | None => raise DanglingRCP
  end.

(** [vec->sumIntoGlobalValue( g, x )] through the pointer: the object is
    updated where it lives. *)
Definition rcp_sumIntoGlobalValue (vec : nat) (g : Z) (x : scalar) : M unit :=
  w ← get_world;
  match vector_heap w !! vec with
  | Some v =>
      match sumIntoGlobalValue v g x with
      | Some v' => update (set_vector_heap (λ h, <[vec := v']> h))
      | None => raise NotOwned
      end
  | None => raise DanglingRCP
  end.

(** *** The channel

    A call that takes data from the controller completes with the next
    message the controller has for this worker, which must hold as many
    elements as the call asks for; with no message it never completes.
    The controller is taken to perform the operation that matches the call,
    and a call for n elements to fill n elements of its buffer: an element
    read back is the element delivered.  (That is so where the buffer's
    element type is as wide as the datatype of the call; [exchanged_bits]
    and [printed_bits] below compare the two.) *)
Definition receive : M buffer := λ w,
  match inbox w with
  | [] => Blocked w
  | b :: rest => Ok b (set_inbox rest w)
  end.

Definition completed (o : op) : M unit := update (add_trace o).

Definition receive_ints (o : op) (count : Z) : M (list Z) :=
  b ← receive;
  match b with
  | ints l =>
      if bool_decide (Array_size l = count) then completed o;; mret l
      else raise ProtocolDesync
  | doubles _ => raise ProtocolDesync
  end.

Definition receive_doubles (o : op) (count : Z) : M (list scalar) :=
  b ← receive;
  match b with
  | doubles l =>
      if bool_decide (Array_size l = count) then completed o;; mret l
      else raise ProtocolDesync
  | ints _ => raise ProtocolDesync
  end.

(** A call with count 1 on the address of a variable, as in
    [intercomm.Bcast( &size, 1, MPI_SIZE, 0 )]: the variable has
    the one element received. *)
Definition one (call : M (list Z)) : M Z :=
  l ← call;
  match l with
  | [v] => mret v
  | _ => raise ProtocolDesync
  end.

Definition intercomm_Bcast (d : Datatype) (count : Z) : M (list Z) :=
  receive_ints (Bcast d count) count.
Definition intercomm_Scatter (d : Datatype) (recvcount : Z) : M (list Z) :=
  receive_ints (Scatter d recvcount) recvcount.
Definition intercomm_Scatterv (d : Datatype) (recvcount : Z) : M (list Z) :=
  receive_ints (Scatterv d recvcount) recvcount.
Definition intercomm_Recv (d : Datatype) (count : Z) : M (list Z) :=
  receive_ints (Recv d count) count.
Definition intercomm_Recv_doubles (d : Datatype) (count : Z)
  : M (list scalar) :=
  receive_doubles (Recv d count) count.
Definition intercomm_Gather (d : Datatype) (sendbuf : buffer) : M unit :=
  completed (Gather d sendbuf).
Definition intercomm_Gatherv (d : Datatype) (sendbuf : buffer) : M unit :=
  completed (Gatherv d sendbuf).
Definition intercomm_Get_rank : M Z :=
  w ← get_world; mret (Z.of_nat (comm_rank w)).

(** ** The handlers

    The source is built without DEBUG, where [out( intercomm )] is the
    black-hole stream: its writes are left out. *)

(** NEW_MAP: create new map *)
Definition new_map : M unit :=
  t ← the_tables;
  let imap := to_int (Array_size (MAPS t)) in
  size ← one (intercomm_Bcast MPI_SIZE 1);
  ndofs ← one (intercomm_Scatter MPI_SIZE 1);
  Array_alloc ndofs;;
  elementList ← intercomm_Scatterv MPI_GLOBAL ndofs;
  MAPS_push_back {| map_size := size; map_elementList := elementList;
                    map_indexBase := indexBase |};;
  intercomm_Gather MPI_HANDLE (ints [imap]).

(** NEW_VECTOR: create new vector *)
Definition new_vector : M unit :=
  t ← the_tables;
  let ivec := to_int (Array_size (VECTORS t)) in
  imap ← one (intercomm_Bcast MPI_HANDLE 1);
  map ← Array_at (MAPS t) imap;
  vec ← rcp_new_vector_t map;
  VECTORS_push_back vec;;
  intercomm_Gather MPI_HANDLE (ints [ivec]).

(** The first loop of [new_graph]: [nitems += numcols_ptr[ irow ]] for every
    row, in an [int]. *)
Fixpoint count_items (numcols : list Z) (nitems : Z) : Z :=
  match numcols with
  | [] => nitems
  | n :: numcols' => count_items numcols' (to_int (nitems + n))
  end.

(** The second loop of [new_graph], from row [irow] on: the row's slice of
    [items] is inserted under the index [irow], and [offset] advances by the
    length of the slice. *)
Fixpoint insert_rows (numcols : list Z) (irow : Z) (items : list Z)
    (offset : Z) (graph : graph_t) : option graph_t :=
  match numcols with
  | [] => Some graph
  | size :: numcols' =>
      indices ← view items offset size;
      insert_rows numcols' (irow + 1) items (offset + size)
        (insertGlobalIndices graph irow indices)
  end.

(** NEW_GRAPH: create new graph *)
Definition new_graph : M unit :=
  t ← the_tables;
  let igraph := to_int (Array_size (GRAPHS t)) in
  imap ← one (intercomm_Bcast MPI_HANDLE 1);
  map ← Array_at (MAPS t) imap;
  let nrows := Z.of_nat (getNodeNumElements map) in
  numcols ← intercomm_Scatterv MPI_SIZE nrows;
  let nitems := count_items numcols 0 in
  Array_alloc nitems;;
  items ← intercomm_Scatterv MPI_GLOBAL nitems;
  graph ← or_raise RangeError
    (insert_rows numcols 0 items 0 (graph_new map numcols));
  GRAPHS_push_back (fillComplete graph);;
  intercomm_Gather MPI_HANDLE (ints [igraph]).

(** The loop of [add_evec]: [vec->sumIntoGlobalValue( idx[i], data[i] )] for
    every item. *)
Fixpoint sum_items (vec : nat) (idx : list Z) (data : list scalar) : M unit :=
  match idx, data with
  | i :: idx', x :: data' =>
      rcp_sumIntoGlobalValue vec i x;;
      sum_items vec idx' data'
  | _, _ => mret tt
  end.

(** ADD_EVEC: add items to vector *)
Definition add_evec : M unit :=
  rank ← one (intercomm_Bcast MPI_SIZE 1);
  myrank ← intercomm_Get_rank;
  if bool_decide (rank ≠ myrank) then mret tt
  else
    ivec ← one (intercomm_Recv MPI_HANDLE 1);
    nitems ← one (intercomm_Recv MPI_SIZE 1);
    Array_alloc nitems;;
    idx ← intercomm_Recv MPI_GLOBAL nitems;
    data ← intercomm_Recv_doubles MPI_SCALAR nitems;
    t ← the_tables;
    vec ← Array_at (VECTORS t) ivec;
    sum_items vec idx data.

(** GET_VECTOR: collect vector over the intercom *)
Definition get_vector : M unit :=
  ivec ← one (intercomm_Bcast MPI_HANDLE 1);
  t ← the_tables;
  vec ← Array_at (VECTORS t) ivec;
  data ← rcp_getData vec;
  intercomm_Gatherv MPI_SCALAR (doubles data).

(** NEW_MATRIX: create new matrix *)
Definition new_matrix : M unit :=
  t ← the_tables;
  let imat := to_int (Array_size (MATRICES t)) in
  igraph ← one (intercomm_Bcast MPI_HANDLE 1);
  graph ← Array_at (GRAPHS t) igraph;
  MATRICES_push_back {| matrix_graph := graph |};;
  intercomm_Gather MPI_HANDLE (ints [imat]).

(** ** The event loop *)

(** #define TOKENS new_matrix, new_vector, add_evec, get_vector, new_map,
    new_graph: the macro gives both the handlers of [FTABLE] and, through
    STR, their names. *)
Definition TOKENS : list (string * M unit) :=
  [ ("new_matrix", new_matrix); ("new_vector", new_vector);
    ("add_evec", add_evec); ("get_vector", get_vector);
    ("new_map", new_map); ("new_graph", new_graph) ]%string.

Definition FTABLE : list (M unit) := TOKENS.*2.

Definition NTOKENS : Z := Array_size FTABLE.

Definition STR_TOKENS : string :=
  ("(" +:+ String.concat ", " TOKENS.*1 +:+ ")")%string.

(** The loop of [eventloop] has no bound of its own, so it is run with
    fuel, one unit per round; a program that runs out of fuel has no
    outcome yet. *)
Definition P (A : Type) : Type := world → option (outcome A).

Definition lift {A} (m : M A) : P A := λ w, Some (m w).

Global Instance P_ret : MRet P := λ A a w, Some (Ok a w).

Global Instance P_bind : MBind P := λ A B k m w,
  match m w with
  | Some (Ok a w') => k a w'
  | Some (Blocked w') => Some (Blocked w')
  | Some (Fault f w') => Some (Fault f w')
  | None => None
  end.

(** for ( ;; ) { Bcast c; if ( c >= NTOKENS ) break; FTABLE[c]( intercomm ); } *)
Fixpoint dispatch (fuel : nat) : P unit :=
  match fuel with
  | O => λ _, None
  | S fuel' =>
      c ← lift (one (intercomm_Bcast MPI_CHAR 1));
      let c := to_uchar c in
      if bool_decide (NTOKENS ≤ c) then mret tt
      else
        (* c < NTOKENS: the default is never used *)
        lift (nth (Z.to_nat c) FTABLE (mret tt));;
        dispatch fuel'
  end.

(** [Set_errhandler] and [Get_parent] exchange nothing and are left out. *)
Definition eventloop (fuel : nat) (progname : string) : P unit :=
  lift (completed Init);;
  dispatch fuel;;
  lift (completed Disconnect);;
  lift (completed Finalize).

Definition print (line : string) : M unit := update (add_cout line).

Definition bits (dm : data_model) (t : ctype) : string :=
  pretty (sizeof dm t ≪ 3).

Definition usage (argv : list string) : P Z :=
  lift (print ("syntax: " +:+ hd "" argv +:+ " info|eventloop"));;
  mret 1.

Definition main (fuel : nat) (dm : data_model) (argv : list string) : P Z :=
  match argv with
  | [progname; mode] =>
      if bool_decide (mode = "info") then
        lift (print ("token: enum" +:+ STR_TOKENS));;
        lift (print ("local: int" +:+ bits dm local_t));;
        lift (print ("global: int" +:+ bits dm global_t));;
        lift (print ("size: int" +:+ bits dm c_size_t));;
        lift (print ("handle: int" +:+ bits dm handle_t));;
        lift (print ("scalar: float" +:+ bits dm scalar_t));;
        mret 0
      else if bool_decide (mode = "eventloop") then
        eventloop fuel progname;;
        mret 0
      else usage argv
  | _ => usage argv
  end.

(** ** The controller's side of the channel

    What reaches worker [r] of the operations the controller performs as
    root: a broadcast reaches every worker, a scatter gives each worker its
    own part, a send reaches its destination only, and in a gather nothing
    travels towards the workers. *)
Inductive root_op :=
  | root_Bcast (b : buffer)
  | root_Scatter (parts : list buffer)
  | root_Scatterv (parts : list buffer)
  | root_Send (dest : nat) (b : buffer)
  | root_Gather
  | root_Gatherv.

Definition delivered (r : nat) (o : root_op) : list buffer :=
  match o with
  | root_Bcast b => [b]
  | root_Scatter parts | root_Scatterv parts => option_list (parts !! r)
  | root_Send dest b => if bool_decide (dest = r) then [b] else []
  | root_Gather | root_Gatherv => []
  end.

Definition worker_inbox (r : nat) (script : list root_op) : list buffer :=
  script ≫= delivered r.

(** ** The command table of the spec

    The table of the spec's section 4.3, to compare the handlers with: for
    each wire code, in order, the name of the command and the exchanges of
    its row, each with the collective and the kind of field it moves. *)
Inductive collective :=
  | broadcast
  | scatter
  | scatter_variable
  | gather
  | gather_variable
  | point_to_point.

Definition exchange : Type := collective * Datatype.

(** [self_is_target] decides the conditional part of AccumulateVector. *)
Definition command_table (self_is_target : bool)
  : list (string * list exchange) :=
  [ ("CreateMatrix", [(broadcast, MPI_HANDLE); (gather, MPI_HANDLE)]);
    ("CreateVector", [(broadcast, MPI_HANDLE); (gather, MPI_HANDLE)]);
    ("AccumulateVector",
      (broadcast, MPI_SIZE) ::
      if self_is_target
      then [ (point_to_point, MPI_HANDLE); (point_to_point, MPI_SIZE);
             (point_to_point, MPI_GLOBAL); (point_to_point, MPI_SCALAR) ]
      else []);
    ("ReadVector", [(broadcast, MPI_HANDLE); (gather_variable, MPI_SCALAR)]);
    ("CreateMap",
      [ (broadcast, MPI_SIZE); (scatter, MPI_SIZE);
        (scatter_variable, MPI_GLOBAL); (gather, MPI_HANDLE) ]);
    ("CreateGraph",
      [ (broadcast, MPI_HANDLE); (scatter_variable, MPI_SIZE);
        (scatter_variable, MPI_GLOBAL); (gather, MPI_HANDLE) ]) ]%string.

(** The exchange an operation of the trace is. *)
Definition exchange_of (o : op) : option exchange :=
  match o with
  | Bcast d _ => Some (broadcast, d)
  | Scatter d _ => Some (scatter, d)
  | Scatterv d _ => Some (scatter_variable, d)
  | Gather d _ => Some (gather, d)
  | Gatherv d _ => Some (gather_variable, d)
  | Recv d _ => Some (point_to_point, d)
  | Init | Disconnect | Finalize => None
  end.

(** Whether the rank the controller broadcasts next is this worker's. *)
Definition self_is_target (w : world) : bool :=
  match inbox w with
  | ints [rank] :: _ => bool_decide (rank = Z.of_nat (comm_rank w))
  | _ => false
  end.

(** The state in which the handler of a round starts: the command code has
    been received. *)
Definition code_received (rest : list buffer) (w : world) : world :=
  add_trace (Bcast MPI_CHAR 1) (set_inbox rest w).

(** The state after the exchanges [ops] have completed and left [rest] in
    the inbox; nothing else has changed. *)
Definition exchanged (ops : list op) (rest : list buffer) (w : world)
  : world :=
  {| registry := registry w; vector_heap := vector_heap w;
     comm_rank := comm_rank w; inbox := rest; trace := trace w ++ ops;
     cout := cout w |}.

(** ** Sessions

    A round of the loop in which the handler of code [code] runs and
    returns, and sequences of such rounds with, for each, the code and the
    handle gathered at its end. *)
Definition round (code : nat) (w w' : world) : Prop :=
  ∃ c rest (handler : M unit),
    inbox w = ints [c] :: rest ∧ Z.to_nat (to_uchar c) = code ∧
    FTABLE !! code = Some handler ∧
    handler (code_received rest w) = Ok tt w'.

Definition gathered_handle (w : world) : option Z :=
  match last (trace w) with
  | Some (Gather _ (ints [h])) => Some h
  | _ => None
  end.

Inductive session : world → list (nat * option Z) → world → Prop :=
  | session_nil w : session w [] w
  | session_round w code w1 hist w2 :
      round code w w1 → session w1 hist w2 →
      session w ((code, gathered_handle w1) :: hist) w2.

(** The length of the table that the creation command of a code appends
    to. *)
Definition table_length (code : nat) (t : tables) : nat :=
  match code with
  | 0 => length (MATRICES t)
  | 1 => length (VECTORS t)
  | 4 => length (MAPS t)
  | 5 => length (GRAPHS t)
  | _ => 0
  end%nat.

Definition creation_codes : list nat := [0; 1; 4; 5]%nat.

(** The handles gathered in the rounds of one code, in order. *)
Definition handles_of (code : nat) (hist : list (nat * option Z))
  : list (option Z) :=
  (filter (λ entry, entry.1 = code) hist).*2.

(** ** The controller's rounds

    Modelled from the spec: what the controller does in the three rounds on
    vectors, from the rows of the command table (the command code itself
    left out). *)
Definition CreateVector (imap : Z) : list root_op :=
  [root_Bcast (ints [imap]); root_Gather].

Definition AccumulateVector (target : nat) (ivec : Z) (idx : list Z)
    (data : list scalar) : list root_op :=
  [ root_Bcast (ints [Z.of_nat target]);
    root_Send target (ints [ivec]);
    root_Send target (ints [Array_size idx]);
    root_Send target (ints idx);
    root_Send target (doubles data) ].

Definition ReadVector (ivec : Z) : list root_op :=
  [root_Bcast (ints [ivec]); root_Gatherv].

(** The vector after the items of an accumulation have been added to it,
    one after the other. *)
Fixpoint sum_all (v : vector_t) (idx : list Z) (data : list scalar)
  : option vector_t :=
  match idx, data with
  | i :: idx', x :: data' =>
      v' ← sumIntoGlobalValue v i x; sum_all v' idx' data'
  | _, _ => Some v
  end.

(** Whether a worker in state [w] performs a point-to-point receive when it
    runs [add_evec]. *)
Definition is_Recv (o : op) : bool :=
  match o with Recv _ _ => true | _ => false end.

Definition performs_receive (w : world) : bool :=
  existsb is_Recv (drop (length (trace w)) (trace (final (add_evec w)))).

(** The scalars a worker contributed to the last gather-with-variable-counts,
    when that is the last thing it did. *)
Definition contribution (w : world) : option (list scalar) :=
  match last (trace w) with
  | Some (Gatherv _ (doubles data)) => Some data
  | _ => None
  end.

(** ** The rows of a graph as the spec has them

    The slice of the flat column-index buffer that belongs to each row: the
    rows are concatenated in row order, so the slice of a row starts where
    the one before it ends. *)
Fixpoint row_slices (numcols : list Z) (items : list Z) : list (list Z) :=
  match numcols with
  | [] => []
  | size :: numcols' =>
      take (Z.to_nat size) items :: row_slices numcols' (drop (Z.to_nat size) items)
  end.

(** The insertions the second loop of [new_graph] makes for the slices
    [slices], the first under the index [irow]. *)
Fixpoint insert_slices (irow : Z) (slices : list (list Z)) (g : graph_t)
  : graph_t :=
  match slices with
  | [] => g
  | indices :: slices' =>
      insert_slices (irow + 1) slices' (insertGlobalIndices g irow indices)
  end.

(** ** The widths that [info] prints

    The bit-width that [main] prints in [info] mode for each kind of field,
    and the one that fields of the kind have in the exchanges. *)
Inductive field_kind := kind_local | kind_global | kind_size | kind_handle
  | kind_scalar.

Definition printed_bits (dm : data_model) (k : field_kind) : Z :=
  match k with
  | kind_local => sizeof dm local_t ≪ 3
  | kind_global => sizeof dm global_t ≪ 3
  | kind_size => sizeof dm c_size_t ≪ 3
  | kind_handle => sizeof dm handle_t ≪ 3
  | kind_scalar => sizeof dm scalar_t ≪ 3
  end.

Definition kind_Datatype (k : field_kind) : Datatype :=
  match k with
  | kind_local => MPI_LOCAL
  | kind_global => MPI_GLOBAL
  | kind_size => MPI_SIZE
  | kind_handle => MPI_HANDLE
  | kind_scalar => MPI_SCALAR
  end.

Definition exchanged_bits (dm : data_model) (k : field_kind) : Z :=
  8 * Datatype_size dm (kind_Datatype k).

(** ** What a handler may do to the registries *)

(** One entry appended to the table of a creation code, the other three
    tables as they were. *)
Definition appended (code : nat) (t t' : tables) : Prop :=
  match code with
  | 0 => ∃ m, t' = {| VECTORS := VECTORS t; MATRICES := MATRICES t ++ [m];
                      MAPS := MAPS t; GRAPHS := GRAPHS t |}
  | 1 => ∃ p, t' = {| VECTORS := VECTORS t ++ [p]; MATRICES := MATRICES t;
                      MAPS := MAPS t; GRAPHS := GRAPHS t |}
  | 4 => ∃ m, t' = {| VECTORS := VECTORS t; MATRICES := MATRICES t;
                      MAPS := MAPS t ++ [m]; GRAPHS := GRAPHS t |}
  | 5 => ∃ g, t' = {| VECTORS := VECTORS t; MATRICES := MATRICES t;
                      MAPS := MAPS t; GRAPHS := GRAPHS t ++ [g] |}
  | _ => False
  end%nat.

(** Every table starts with the entries it had, in their order. *)
Definition extends (t t' : tables) : Prop :=
  VECTORS t `prefix_of` VECTORS t' ∧ MATRICES t `prefix_of` MATRICES t' ∧
  MAPS t `prefix_of` MAPS t' ∧ GRAPHS t `prefix_of` GRAPHS t'.

(** ** Consistent registries

    What the registries and the vector objects of a worker look like at any
    point of a session: every vector handle has a vector object of its own,
    with one entry per element its map gives the worker; vectors and graphs
    are over stored maps; every stored graph is sealed and has one row per
    element of its map; every matrix is over a stored graph. *)
Definition vector_ok (t : tables) (v : vector_t) : Prop :=
  length (vector_data v) = getNodeNumElements (vector_map v) ∧
  vector_map v ∈ MAPS t.

Definition graph_ok (t : tables) (g : graph_t) : Prop :=
  graph_fillComplete g = true ∧ graph_map g ∈ MAPS t ∧
  length (graph_rows g) = getNodeNumElements (graph_map g).

Definition consistent (w : world) : Prop :=
  VECTORS (registry w) = seq 0 (length (vector_heap w)) ∧
  Forall (vector_ok (registry w)) (vector_heap w) ∧
  Forall (graph_ok (registry w)) (GRAPHS (registry w)) ∧
  Forall (λ m, matrix_graph m ∈ GRAPHS (registry w)) (MATRICES (registry w)).

(** An operation of the trace that moves data between the controller and
    the worker, as opposed to one that opens or closes the session. *)
Definition is_exchange (o : op) : Prop := is_Some (exchange_of o).

(** The controller's part of a CreateMap round for one worker, as the worker
    receives it: total size, its element count, its elements. *)
Definition CreateMap_messages (size : Z) (elementList : list Z)
  : list buffer :=
  [ints [size]; ints [Array_size elementList]; ints elementList].

(** The controller's part of an AccumulateVector round as its target
    receives it. *)
Definition AccumulateVector_messages (rank : nat) (ivec : Z) (idx : list Z)
    (data : list scalar) : list buffer :=
  [ ints [Z.of_nat rank]; ints [ivec]; ints [Array_size idx]; ints idx;
    doubles data ].

(** ** What a run keeps

    Between two states of a worker: every table starts with the entries it
    had, and every vector object is where it was, over the same map and with
    as many entries. *)
Definition keeps (w w' : world) : Prop :=
  extends (registry w) (registry w') ∧
  ∀ p v, vector_heap w !! p = Some v →
    ∃ v', vector_heap w' !! p = Some v' ∧ vector_map v' = vector_map v ∧
      length (vector_data v') = length (vector_data v).

(** The messages of a CreateGraph round and of a CreateMatrix round, as a
    worker receives them. *)
Definition CreateGraph_messages (imap : Z) (numcols items : list Z)
  : list buffer :=
  [ints [imap]; ints numcols; ints items].

Definition CreateMatrix_messages (igraph : Z) : list buffer :=
  [ints [igraph]].

(** * Properties of the embedding *)

(** ** Running worker programs symbolically *)

Create HintDb exec.
#[local] Hint Unfold the_tables one intercomm_Bcast intercomm_Scatter
  intercomm_Scatterv intercomm_Recv intercomm_Recv_doubles intercomm_Gather
  intercomm_Gatherv intercomm_Get_rank receive_ints receive_doubles receive
  Array_at Array_alloc or_raise VECTORS_push_back MATRICES_push_back
  MAPS_push_back GRAPHS_push_back rcp_new_vector_t rcp_getData
  rcp_sumIntoGlobalValue completed print update get_world raise lift
  set_registry set_vector_heap set_inbox add_trace add_cout
  mbind M_bind P_bind mret M_ret P_ret : exec.

Ltac exec := autounfold with exec in *; simpl in *.
Ltac cases :=
  repeat (first [case_bool_decide | case_match]; simplify_eq; simpl in * ).
Ltac decided :=
  simpl;
  repeat (first [rewrite bool_decide_true by (done || lia)
                | rewrite bool_decide_false by (done || lia)]; simpl).

(** ** The registries under the handlers *)

(** The loop of [add_evec] only writes to vector objects. *)
Lemma sum_items_final vec idx data w :
  let w' := final (sum_items vec idx data w) in
  registry w' = registry w ∧ inbox w' = inbox w ∧ trace w' = trace w ∧
  comm_rank w' = comm_rank w ∧ cout w' = cout w ∧
  length (vector_heap w') = length (vector_heap w).
Proof.
  revert data w. induction idx as [|i idx IH]; intros [|x data] w; try done.
  simpl. exec. destruct w as [t h r inb tr co]; simpl.
  destruct (h !! vec) as [v|]; [|done].
  destruct (sumIntoGlobalValue v i x) as [v'|]; [|done].
  simpl. specialize (IH data {| registry := t; vector_heap := <[vec:=v']> h;
    comm_rank := r; inbox := inb; trace := tr; cout := co |}).
  simpl in IH. rewrite length_insert in IH. done.
Qed.

(** What each handler does to the state when it returns, and that it
    leaves the registries and the vector objects alone when it does not. *)
Lemma new_map_effect w :
  match new_map w with
  | Ok _ w' =>
      ∃ size ndofs elementList rest,
        inbox w = ints [size] :: ints [ndofs] :: ints elementList :: rest ∧
        Array_size elementList = ndofs ∧
        registry w' =
          {| VECTORS := VECTORS (registry w);
             MATRICES := MATRICES (registry w);
             MAPS := MAPS (registry w) ++
               [ {| map_size := size; map_elementList := elementList;
                    map_indexBase := indexBase |} ];
             GRAPHS := GRAPHS (registry w) |} ∧
        vector_heap w' = vector_heap w ∧ inbox w' = rest ∧
        comm_rank w' = comm_rank w ∧ cout w' = cout w ∧
        trace w' = trace w ++
          [ Bcast MPI_SIZE 1; Scatter MPI_SIZE 1; Scatterv MPI_GLOBAL ndofs;
            Gather MPI_HANDLE
              (ints [to_int (Array_size (MAPS (registry w)))]) ]
  | Blocked w' | Fault _ w' =>
      registry w' = registry w ∧ vector_heap w' = vector_heap w
  end.
Proof.
  destruct w as [t h r i tr co]. unfold new_map. exec.
  cases; subst; try done.
  eexists _, _, _, _. rewrite <-!app_assoc. done.
Qed.

Lemma new_vector_effect w :
  match new_vector w with
  | Ok _ w' =>
      ∃ imap map rest,
        inbox w = ints [imap] :: rest ∧
        0 ≤ imap ∧ MAPS (registry w) !! Z.to_nat imap = Some map ∧
        registry w' =
          {| VECTORS := VECTORS (registry w) ++ [length (vector_heap w)];
             MATRICES := MATRICES (registry w);
             MAPS := MAPS (registry w);
             GRAPHS := GRAPHS (registry w) |} ∧
        vector_heap w' = vector_heap w ++ [vector_new map] ∧
        inbox w' = rest ∧
        comm_rank w' = comm_rank w ∧ cout w' = cout w ∧
        trace w' = trace w ++
          [ Bcast MPI_HANDLE 1;
            Gather MPI_HANDLE
              (ints [to_int (Array_size (VECTORS (registry w)))]) ]
  | Blocked w' | Fault _ w' =>
      registry w' = registry w ∧ vector_heap w' = vector_heap w
  end.
Proof.
  destruct w as [t h r i tr co]. unfold new_vector. exec.
  cases; subst; try done.
  eexists _, _, _. rewrite <-!app_assoc. done.
Qed.

Lemma new_graph_effect w :
  match new_graph w with
  | Ok _ w' =>
      ∃ imap map numcols items graph rest,
        inbox w = ints [imap] :: ints numcols :: ints items :: rest ∧
        0 ≤ imap ∧ MAPS (registry w) !! Z.to_nat imap = Some map ∧
        Array_size numcols = Z.of_nat (getNodeNumElements map) ∧
        Array_size items = count_items numcols 0 ∧
        insert_rows numcols 0 items 0 (graph_new map numcols) = Some graph ∧
        registry w' =
          {| VECTORS := VECTORS (registry w);
             MATRICES := MATRICES (registry w);
             MAPS := MAPS (registry w);
             GRAPHS := GRAPHS (registry w) ++ [fillComplete graph] |} ∧
        vector_heap w' = vector_heap w ∧ inbox w' = rest ∧
        comm_rank w' = comm_rank w ∧ cout w' = cout w ∧
        trace w' = trace w ++
          [ Bcast MPI_HANDLE 1;
            Scatterv MPI_SIZE (Z.of_nat (getNodeNumElements map));
            Scatterv MPI_GLOBAL (count_items numcols 0);
            Gather MPI_HANDLE
              (ints [to_int (Array_size (GRAPHS (registry w)))]) ]
  | Blocked w' | Fault _ w' =>
      registry w' = registry w ∧ vector_heap w' = vector_heap w
  end.
Proof.
  destruct w as [t h r i tr co]. unfold new_graph. exec.
  cases; subst; try done.
  eexists _, _, _, _, _, _. rewrite <-!app_assoc. done.
Qed.

Lemma new_matrix_effect w :
  match new_matrix w with
  | Ok _ w' =>
      ∃ igraph graph rest,
        inbox w = ints [igraph] :: rest ∧
        0 ≤ igraph ∧ GRAPHS (registry w) !! Z.to_nat igraph = Some graph ∧
        registry w' =
          {| VECTORS := VECTORS (registry w);
             MATRICES := MATRICES (registry w) ++
               [ {| matrix_graph := graph |} ];
             MAPS := MAPS (registry w);
             GRAPHS := GRAPHS (registry w) |} ∧
        vector_heap w' = vector_heap w ∧ inbox w' = rest ∧
        comm_rank w' = comm_rank w ∧ cout w' = cout w ∧
        trace w' = trace w ++
          [ Bcast MPI_HANDLE 1;
            Gather MPI_HANDLE
              (ints [to_int (Array_size (MATRICES (registry w)))]) ]
  | Blocked w' | Fault _ w' =>
      registry w' = registry w ∧ vector_heap w' = vector_heap w
  end.
Proof.
  destruct w as [t h r i tr co]. unfold new_matrix. exec.
  cases; subst; try done.
  eexists _, _, _. rewrite <-!app_assoc. done.
Qed.

Lemma get_vector_effect w :
  match get_vector w with
  | Ok _ w' =>
      ∃ ivec vec v rest,
        inbox w = ints [ivec] :: rest ∧
        0 ≤ ivec ∧ VECTORS (registry w) !! Z.to_nat ivec = Some vec ∧
        vector_heap w !! vec = Some v ∧
        registry w' = registry w ∧
        vector_heap w' = vector_heap w ∧ inbox w' = rest ∧
        comm_rank w' = comm_rank w ∧ cout w' = cout w ∧
        trace w' = trace w ++
          [ Bcast MPI_HANDLE 1; Gatherv MPI_SCALAR (doubles (getData v)) ]
  | Blocked w' | Fault _ w' =>
      registry w' = registry w ∧ vector_heap w' = vector_heap w
  end.
Proof.
  destruct w as [t h r i tr co]. unfold get_vector. exec.
  cases; subst; try done.
  eexists _, _, _, _. rewrite <-!app_assoc. done.
Qed.

Lemma add_evec_effect w :
  match add_evec w with
  | Ok _ w' =>
      ∃ rank rest,
        inbox w = ints [rank] :: rest ∧
        registry w' = registry w ∧
        comm_rank w' = comm_rank w ∧ cout w' = cout w ∧
        length (vector_heap w') = length (vector_heap w) ∧
        if bool_decide (rank ≠ Z.of_nat (comm_rank w)) then
          vector_heap w' = vector_heap w ∧ inbox w' = rest ∧
          trace w' = trace w ++ [Bcast MPI_SIZE 1]
        else
          ∃ ivec nitems idx data rest',
            rest = ints [ivec] :: ints [nitems] :: ints idx ::
                   doubles data :: rest' ∧
            Array_size idx = nitems ∧ Array_size data = nitems ∧
            inbox w' = rest' ∧
            trace w' = trace w ++
              [ Bcast MPI_SIZE 1; Recv MPI_HANDLE 1; Recv MPI_SIZE 1;
                Recv MPI_GLOBAL nitems; Recv MPI_SCALAR nitems ]
  | Blocked w' | Fault _ w' => registry w' = registry w
  end.
Proof.
  destruct w as [t h r i tr co]. unfold add_evec. exec.
  cases; subst; try done;
    try match goal with
        | H : sum_items ?v ?i ?d ?w0 = _ |- _ =>
            pose proof (sum_items_final v i d w0) as F; rewrite H in F;
            simpl in F; destruct F as (?&?&?&?&?&?)
        end; try done.
  - eexists _, _. rewrite bool_decide_true by done. done.
  - eexists _, _. rewrite bool_decide_false by (intros ?; done).
    split_and!; try done.
    eexists _, _, _, _, _. split_and!; try done.
    by rewrite <-!app_assoc in *.
Qed.

(** ** The dispatch loop *)

Lemma NTOKENS_6 : NTOKENS = 6.
Proof. reflexivity. Qed.

Lemma to_uchar_range c : 0 ≤ to_uchar c < 256.
Proof. unfold to_uchar. apply Z.mod_pos_bound. lia. Qed.

Lemma FTABLE_lookup c :
  to_uchar c < NTOKENS →
  ∃ handler, FTABLE !! Z.to_nat (to_uchar c) = Some handler ∧
    nth (Z.to_nat (to_uchar c)) FTABLE (mret tt) = handler.
Proof.
  rewrite NTOKENS_6. intros Hc. pose proof (to_uchar_range c) as Hr.
  destruct (lookup_lt_is_Some_2 FTABLE (Z.to_nat (to_uchar c))) as [h Hh].
  { change (length FTABLE) with 6%nat. lia. }
  exists h. split; [done|]. by rewrite nth_lookup, Hh.
Qed.

(** One round of the loop, once the code has arrived. *)
Lemma dispatch_round fuel w c rest :
  inbox w = ints [c] :: rest →
  dispatch (S fuel) w =
    if bool_decide (NTOKENS ≤ to_uchar c) then Some (Ok tt (code_received rest w))
    else (lift (nth (Z.to_nat (to_uchar c)) FTABLE (mret tt));; dispatch fuel)
           (code_received rest w).
Proof.
  destruct w as [t h r i tr co]. simpl. intros ->.
  change (dispatch (S fuel)) with
    (c ← lift (one (intercomm_Bcast MPI_CHAR 1));
     let c := to_uchar c in
     if bool_decide (NTOKENS ≤ c) then mret tt
     else lift (nth (Z.to_nat c) FTABLE (mret tt));; dispatch fuel).
  unfold code_received.
  autounfold with exec. simpl. 
  by destruct (bool_decide (NTOKENS ≤ to_uchar c)).
Qed.

Lemma dispatch_in_range fuel w c rest :
  inbox w = ints [c] :: rest → to_uchar c < NTOKENS →
  ∃ handler, FTABLE !! Z.to_nat (to_uchar c) = Some handler ∧
    dispatch (S fuel) w = (lift handler;; dispatch fuel) (code_received rest w).
Proof.
  intros Hw Hc. destruct (FTABLE_lookup c Hc) as (h & Hh & Hn).
  exists h. split; [done|].
  rewrite (dispatch_round fuel w c rest Hw), bool_decide_false by lia.
  by rewrite Hn.
Qed.

(** ** The command table *)

Lemma handler_exchanges code (handler : M unit) name row w w' :
  FTABLE !! code = Some handler →
  command_table (self_is_target w) !! code = Some (name, row) →
  handler w = Ok tt w' →
  ∃ ops, trace w' = trace w ++ ops ∧ mapM exchange_of ops = Some row.
Proof.
  intros Hh Hrow Hrun.
  destruct code as [|[|[|[|[|[|?]]]]]]; simplify_eq/=.
  - pose proof (new_matrix_effect w) as E. rewrite Hrun in E.
    destruct E as (?&?&?&?&?&?&?&?&?&?&?&->). eauto.
  - pose proof (new_vector_effect w) as E. rewrite Hrun in E.
    destruct E as (?&?&?&?&?&?&?&?&?&?&?&->). eauto.
  - pose proof (add_evec_effect w) as E. rewrite Hrun in E.
    destruct E as (rank&rest&Hin&?&?&?&?&E).
    unfold self_is_target. rewrite Hin. case_bool_decide.
    + rewrite bool_decide_false by done. destruct E as (?&?&->). eauto.
    + rewrite bool_decide_true by (by destruct (decide (rank = Z.of_nat (comm_rank w)))).
      destruct E as (?&?&?&?&?&?&?&?&?&->). eauto.
  - pose proof (get_vector_effect w) as E. rewrite Hrun in E.
    destruct E as (?&?&?&?&?&?&?&?&?&?&?&?&?&->). eauto.
  - pose proof (new_map_effect w) as E. rewrite Hrun in E.
    destruct E as (?&?&?&?&?&?&?&?&?&?&?&->). eauto.
  - pose proof (new_graph_effect w) as E. rewrite Hrun in E.
    destruct E as (?&?&?&?&?&?&?&?&?&?&?&?&?&?&?&?&?&->). eauto.
Qed.

Lemma new_matrix_run w igraph graph rest :
  inbox w = ints [igraph] :: rest →
  0 ≤ igraph → GRAPHS (registry w) !! Z.to_nat igraph = Some graph →
  ∃ w', new_matrix w = Ok tt w' ∧
    MATRICES (registry w') =
      MATRICES (registry w) ++ [ {| matrix_graph := graph |} ] ∧
    trace w' = trace w ++
      [ Bcast MPI_HANDLE 1;
        Gather MPI_HANDLE
          (ints [to_int (Array_size (MATRICES (registry w)))]) ].
Proof.
  destruct w as [t h r i tr co]. simpl. intros -> Hi Hg.
  unfold new_matrix. exec. decided. rewrite Hg. simpl.
  eexists. split; [done|]. simpl. by rewrite <-app_assoc.
Qed.


(** ** The end of the session *)

Lemma P_bind_Ok {A B} (m : P A) (k : A → P B) w a w' :
  m w = Some (Ok a w') → (m ≫= k) w = k a w'.
Proof. intros H. unfold mbind, P_bind. by rewrite H. Qed.

Lemma main_eventloop fuel dm progname w :
  main fuel dm [progname; "eventloop"%string] w =
    (eventloop fuel progname;; mret 0) w.
Proof. reflexivity. Qed.

(** C3: a command code of 6 or more ends the loop in the round it arrives
    in: no handler runs (the state is the one in which the code was
    received), the channel is disconnected and [main] returns 0, whatever
    the registries hold; a code below 6 runs the handler at its position
    and the loop goes on to its next round. *)
Theorem out_of_range_code_ends_session fuel w c rest :
  inbox w = ints [c] :: rest →
  NTOKENS = 6 ∧
  (NTOKENS ≤ to_uchar c →
     dispatch (S fuel) w = Some (Ok tt (code_received rest w)) ∧
     registry (code_received rest w) = registry w ∧
     vector_heap (code_received rest w) = vector_heap w ∧
     trace (code_received rest w) = trace w ++ [Bcast MPI_CHAR 1] ∧
     ∀ dm progname,
       main (S fuel) dm [progname; "eventloop"%string] w =
         Some (Ok 0 (add_trace Finalize (add_trace Disconnect
                       (code_received rest (add_trace Init w)))))) ∧
  (to_uchar c < NTOKENS →
     ∃ handler, FTABLE !! Z.to_nat (to_uchar c) = Some handler ∧
       dispatch (S fuel) w =
         (lift handler;; dispatch fuel) (code_received rest w)).
Proof.
  intros Hw. split_and!; [done| |by apply dispatch_in_range].
  intros Hc. split_and!; try done.
  - by rewrite (dispatch_round fuel w c rest Hw), bool_decide_true.
  - intros dm progname. rewrite main_eventloop.
    assert (dispatch (S fuel) (add_trace Init w) =
            Some (Ok tt (code_received rest (add_trace Init w)))) as Hd.
    { by rewrite (dispatch_round fuel _ c rest), bool_decide_true. }
    erewrite P_bind_Ok; [reflexivity|].
    unfold eventloop.
    erewrite P_bind_Ok by reflexivity.
    erewrite P_bind_Ok by exact Hd.
    reflexivity.
Qed.

(** ** The registries only grow *)

Lemma extends_refl t : extends t t.
Proof. by unfold extends. Qed.

Lemma appended_extends code t t' : appended code t t' → extends t t'.
Proof.
  unfold extends.
  destruct code as [|[|[|[|[|[|?]]]]]]; simpl; try done;
    intros [x ->]; simpl; split_and!; try done; by apply prefix_app_r.
Qed.

(** C8: a handler that returns has left the four tables as they were
    (add_evec, get_vector) or has appended one entry to the one table of its
    code and left the other three, and the vector objects stored before, as
    they were (new_matrix, new_vector, new_map, new_graph); a handler that
    does not return has left the tables as they were.  So no entry is ever
    removed, replaced or moved. *)
Theorem handlers_only_append code (handler : M unit) w :
  FTABLE !! code = Some handler →
  match handler w with
  | Ok _ w' =>
      if bool_decide (code ∈ creation_codes)
      then appended code (registry w) (registry w') ∧
           vector_heap w `prefix_of` vector_heap w'
      else registry w' = registry w
  | Blocked w' | Fault _ w' => registry w' = registry w
  end ∧
  extends (registry w) (registry (final (handler w))).
Proof.
  intros Hh.
  assert (match handler w with
  | Ok _ w' =>
      if bool_decide (code ∈ creation_codes)
      then appended code (registry w) (registry w') ∧
           vector_heap w `prefix_of` vector_heap w'
      else registry w' = registry w
  | Blocked w' | Fault _ w' => registry w' = registry w
  end) as E.
  { destruct code as [|[|[|[|[|[|?]]]]]]; simplify_eq/=.
    - pose proof (new_matrix_effect w) as E.
      destruct (new_matrix w); [|apply E..].
      destruct E as (?&?&?&?&?&?&->&->&?). split; [by eexists|done].
    - pose proof (new_vector_effect w) as E.
      destruct (new_vector w); [|apply E..].
      destruct E as (?&?&?&?&?&?&->&->&?).
      split; [by eexists|by apply prefix_app_r].
    - pose proof (add_evec_effect w) as E.
      destruct (add_evec w); [|apply E..].
      by destruct E as (?&?&?&->&?).
    - pose proof (get_vector_effect w) as E.
      destruct (get_vector w); [|apply E..].
      by destruct E as (?&?&?&?&?&?&?&?&->&?).
    - pose proof (new_map_effect w) as E.
      destruct (new_map w); [|apply E..].
      destruct E as (?&?&?&?&?&?&->&->&?). split; [by eexists|done].
    - pose proof (new_graph_effect w) as E.
      destruct (new_graph w); [|apply E..].
      destruct E as (?&?&?&?&?&?&?&?&?&?&?&?&->&->&?).
      split; [by eexists|done]. }
  split; [done|].
  destruct (handler w) as [[] w'|w'|f w']; simpl; try (rewrite E; apply extends_refl).
  case_bool_decide.
  - destruct E as [E _]. by eapply appended_extends.
  - rewrite E. apply extends_refl.
Qed.

(** ** Handles *)

Lemma to_int_small z : 0 ≤ z < 2 ^ 31 → to_int z = z.
Proof. intros Hz. unfold to_int. rewrite Z.mod_small; lia. Qed.

Lemma gathered_handle_last w tr ops d h :
  trace w = tr ++ ops → last ops = Some (Gather d (ints [h])) →
  gathered_handle w = Some h.
Proof.
  intros Ht Hl. unfold gathered_handle. by rewrite Ht, last_app, Hl.
Qed.

(** What a round does to the length of the table of a creation code: the
    round of that code gathers the length as the handle and makes the table
    one longer; every other round leaves the length alone. *)
Lemma round_table_length code code' w w1 :
  code ∈ creation_codes → round code' w w1 →
  if decide (code' = code)
  then gathered_handle w1 =
         Some (to_int (Z.of_nat (table_length code (registry w)))) ∧
       table_length code (registry w1) = S (table_length code (registry w))
  else table_length code (registry w1) = table_length code (registry w).
Proof.
  intros Hc (c & rest & handler & Hin & Hcode & Hh & Hrun).
  unfold creation_codes in Hc. rewrite !elem_of_cons, elem_of_nil in Hc.
  set (w0 := code_received rest w) in *.
  destruct code' as [|[|[|[|[|[|?]]]]]]; simplify_eq/=.
  - pose proof (new_matrix_effect w0) as E. rewrite Hrun in E.
    change (registry w0) with (registry w) in E.
    destruct E as (?&?&?&?&?&?&E&?&?&?&?&Ht).
    eapply gathered_handle_last in Ht; [|done]. rewrite E, Ht.
    destruct (decide (_ = code)) as [<-|?]; simpl;
      [by rewrite length_app, Nat.add_1_r|].
    by destruct Hc as [->|[->|[->|[->|[]]]]].
  - pose proof (new_vector_effect w0) as E. rewrite Hrun in E.
    change (registry w0) with (registry w) in E.
    destruct E as (?&?&?&?&?&?&E&?&?&?&?&Ht).
    eapply gathered_handle_last in Ht; [|done]. rewrite E, Ht.
    destruct (decide (_ = code)) as [<-|?]; simpl;
      [by rewrite length_app, Nat.add_1_r|].
    by destruct Hc as [->|[->|[->|[->|[]]]]].
  - pose proof (add_evec_effect w0) as E. rewrite Hrun in E.
    change (registry w0) with (registry w) in E.
    destruct E as (?&?&?&E&?). rewrite E.
    destruct (decide (_ = code)) as [<-|?]; [|done].
    by destruct Hc as [?|[?|[?|[?|[]]]]].
  - pose proof (get_vector_effect w0) as E. rewrite Hrun in E.
    change (registry w0) with (registry w) in E.
    destruct E as (?&?&?&?&?&?&?&?&E&?). rewrite E.
    destruct (decide (_ = code)) as [<-|?]; [|done].
    by destruct Hc as [?|[?|[?|[?|[]]]]].
  - pose proof (new_map_effect w0) as E. rewrite Hrun in E.
    change (registry w0) with (registry w) in E.
    destruct E as (?&?&?&?&?&?&E&?&?&?&?&Ht).
    eapply gathered_handle_last in Ht; [|done]. rewrite E, Ht.
    destruct (decide (_ = code)) as [<-|?]; simpl;
      [by rewrite length_app, Nat.add_1_r|].
    by destruct Hc as [->|[->|[->|[->|[]]]]].
  - pose proof (new_graph_effect w0) as E. rewrite Hrun in E.
    change (registry w0) with (registry w) in E.
    destruct E as (?&?&?&?&?&?&?&?&?&?&?&?&E&?&?&?&?&Ht).
    eapply gathered_handle_last in Ht; [|done]. rewrite E, Ht.
    destruct (decide (_ = code)) as [<-|?]; simpl;
      [by rewrite length_app, Nat.add_1_r|].
    by destruct Hc as [->|[->|[->|[->|[]]]]].
Qed.

Lemma handles_of_cons code code' h hist :
  handles_of code ((code', h) :: hist) =
    if decide (code' = code) then h :: handles_of code hist
    else handles_of code hist.
Proof. unfold handles_of. rewrite filter_cons. simpl. by case_decide. Qed.

(** In a session, the handles gathered for a table are the lengths the table
    has when each is created: consecutive, from the length at the start. *)
Lemma session_handles code w0 hist w :
  code ∈ creation_codes → session w0 hist w →
  handles_of code hist =
    (λ k, Some (to_int (Z.of_nat k))) <$>
      seq (table_length code (registry w0)) (length (handles_of code hist)) ∧
  table_length code (registry w) =
    (table_length code (registry w0) + length (handles_of code hist))%nat.
Proof.
  intros Hc Hs. induction Hs as [w|w code' w1 hist w2 Hr Hs IH].
  - simpl. split; [done|lia].
  - pose proof (round_table_length code code' w w1 Hc Hr) as R.
    rewrite handles_of_cons. destruct IH as [IH1 IH2].
    case_decide.
    + subst code'. destruct R as [-> R]. rewrite R in IH1, IH2.
      rewrite length_cons, <-cons_seq, fmap_cons, <-IH1.
      split; [done|lia].
    + rewrite R in IH1, IH2. done.
Qed.

(** C2: in a session, for each of the four tables and whatever other
    rounds come in between, the handles gathered in the rounds that create
    in the table are consecutive, each the length the table has when its
    object is created, and the table grows by one entry per creation; from
    process start, where the tables are empty, they are 0, 1, ..., N-1 in
    creation order.  Handles are [int]s: this is for tables of up to 2^31
    entries. *)
Theorem handles_count_up_from_zero code w0 hist w :
  code ∈ creation_codes →
  session w0 hist w →
  Z.of_nat (table_length code (registry w0) + length (handles_of code hist))
    ≤ 2 ^ 31 →
  handles_of code hist =
    (λ k, Some (Z.of_nat k)) <$>
      seq (table_length code (registry w0)) (length (handles_of code hist)) ∧
  table_length code (registry w) =
    (table_length code (registry w0) + length (handles_of code hist))%nat ∧
  (registry w0 = empty_tables →
   handles_of code hist =
     (λ k, Some (Z.of_nat k)) <$> seq 0 (length (handles_of code hist))).
Proof.
  intros Hc Hs HN.
  destruct (session_handles code w0 hist w Hc Hs) as [H1 H2].
  assert (handles_of code hist =
    (λ k, Some (Z.of_nat k)) <$>
      seq (table_length code (registry w0)) (length (handles_of code hist)))
    as H3.
  { rewrite H1 at 1. apply list_fmap_ext.
    intros i k Hk. apply lookup_seq in Hk as [-> Hk].
    f_equal. apply to_int_small. lia. }
  split_and!; [done|done|].
  intros H0. rewrite H3 at 1. rewrite H0.
  unfold creation_codes in Hc. rewrite !elem_of_cons, elem_of_nil in Hc.
  by destruct Hc as [->|[->|[->|[->|[]]]]].
Qed.

Lemma M_bind_Ok {A B} (m : M A) (k : A → M B) w a w' :
  m w = Ok a w' → (m ≫= k) w = k a w'.
Proof. intros H. unfold mbind, M_bind. by rewrite H. Qed.

Lemma Array_at_Some {A} (table : list A) i x w :
  0 ≤ i → table !! Z.to_nat i = Some x → Array_at table i w = Ok x w.
Proof. intros Hi Hx. unfold Array_at. decided. by rewrite Hx. Qed.

Lemma Array_at_None {A} (table : list A) i w :
  ¬ (0 ≤ i < Array_size table) → Array_at table i w = Fault InvalidHandle w.
Proof.
  intros Hi. unfold Array_at, Array_size in *. case_bool_decide; [|done].
  rewrite lookup_ge_None_2; [done|lia].
Qed.

Lemma new_vector_run w imap map rest :
  inbox w = ints [imap] :: rest →
  0 ≤ imap → MAPS (registry w) !! Z.to_nat imap = Some map →
  new_vector w =
    Ok tt
      (exchanged
         [ Bcast MPI_HANDLE 1;
           Gather MPI_HANDLE
             (ints [to_int (Array_size (VECTORS (registry w)))]) ] rest
         (set_vector_heap (λ h, h ++ [vector_new map])
            (set_registry (λ t,
               {| VECTORS := VECTORS t ++ [length (vector_heap w)];
                  MATRICES := MATRICES t; MAPS := MAPS t;
                  GRAPHS := GRAPHS t |}) w))).
Proof.
  destruct w as [t h r i tr co]. simpl. intros -> Hi Hm.
  unfold new_vector, exchanged. exec. decided. rewrite Hm. simpl.
  by rewrite <-app_assoc.
Qed.

Lemma get_vector_run w ivec vec v rest :
  inbox w = ints [ivec] :: rest →
  0 ≤ ivec → VECTORS (registry w) !! Z.to_nat ivec = Some vec →
  vector_heap w !! vec = Some v →
  get_vector w =
    Ok tt
      (exchanged
         [Bcast MPI_HANDLE 1; Gatherv MPI_SCALAR (doubles (getData v))]
         rest w).
Proof.
  destruct w as [t h r i tr co]. simpl. intros -> Hi Hvec Hv.
  unfold get_vector, exchanged. exec. decided. rewrite Hvec. simpl.
  rewrite Hv. simpl. by rewrite <-app_assoc.
Qed.

Lemma add_evec_other w rank rest :
  inbox w = ints [rank] :: rest → rank ≠ Z.of_nat (comm_rank w) →
  add_evec w = Ok tt (exchanged [Bcast MPI_SIZE 1] rest w).
Proof.
  destruct w as [t h r i tr co]. simpl. intros -> Hr.
  unfold add_evec, exchanged. exec. by decided.
Qed.

Lemma add_evec_target w ivec nitems idx data rest :
  inbox w = ints [Z.of_nat (comm_rank w)] :: ints [ivec] :: ints [nitems] ::
            ints idx :: doubles data :: rest →
  Array_size idx = nitems → Array_size data = nitems →
  add_evec w =
    (vec ← Array_at (VECTORS (registry w)) ivec; sum_items vec idx data)
      (exchanged
         [ Bcast MPI_SIZE 1; Recv MPI_HANDLE 1; Recv MPI_SIZE 1;
           Recv MPI_GLOBAL nitems; Recv MPI_SCALAR nitems ] rest w).
Proof.
  destruct w as [t h r i tr co]. simpl. intros -> Hidx Hdata.
  unfold add_evec, exchanged. exec.
  rewrite (bool_decide_false (_ ≠ _)) by (intros ?; done).
  unfold Array_size in *. decided. by rewrite <-!app_assoc.
Qed.

(** ** Handles outside their table *)

Ltac invalid_handle :=
  exec; decided; case_bool_decide;
  [rewrite lookup_ge_None_2 by (unfold Array_size in *; lia)|]; done.

Lemma new_vector_invalid w imap rest :
  inbox w = ints [imap] :: rest →
  ¬ (0 ≤ imap < Array_size (MAPS (registry w))) →
  new_vector w = Fault InvalidHandle (exchanged [Bcast MPI_HANDLE 1] rest w).
Proof.
  destruct w as [t h r i tr co]. simpl. intros -> Hi.
  unfold new_vector, exchanged. invalid_handle.
Qed.

Lemma new_graph_invalid w imap rest :
  inbox w = ints [imap] :: rest →
  ¬ (0 ≤ imap < Array_size (MAPS (registry w))) →
  new_graph w = Fault InvalidHandle (exchanged [Bcast MPI_HANDLE 1] rest w).
Proof.
  destruct w as [t h r i tr co]. simpl. intros -> Hi.
  unfold new_graph, exchanged. invalid_handle.
Qed.

Lemma get_vector_invalid w ivec rest :
  inbox w = ints [ivec] :: rest →
  ¬ (0 ≤ ivec < Array_size (VECTORS (registry w))) →
  get_vector w = Fault InvalidHandle (exchanged [Bcast MPI_HANDLE 1] rest w).
Proof.
  destruct w as [t h r i tr co]. simpl. intros -> Hi.
  unfold get_vector, exchanged. invalid_handle.
Qed.

Lemma new_matrix_invalid w igraph rest :
  inbox w = ints [igraph] :: rest →
  ¬ (0 ≤ igraph < Array_size (GRAPHS (registry w))) →
  new_matrix w = Fault InvalidHandle (exchanged [Bcast MPI_HANDLE 1] rest w).
Proof.
  destruct w as [t h r i tr co]. simpl. intros -> Hi.
  unfold new_matrix, exchanged. invalid_handle.
Qed.

Lemma add_evec_invalid w ivec nitems idx data rest :
  inbox w = ints [Z.of_nat (comm_rank w)] :: ints [ivec] :: ints [nitems] ::
            ints idx :: doubles data :: rest →
  Array_size idx = nitems → Array_size data = nitems →
  ¬ (0 ≤ ivec < Array_size (VECTORS (registry w))) →
  add_evec w =
    Fault InvalidHandle
      (exchanged
         [ Bcast MPI_SIZE 1; Recv MPI_HANDLE 1; Recv MPI_SIZE 1;
           Recv MPI_GLOBAL nitems; Recv MPI_SCALAR nitems ] rest w).
Proof.
  intros Hin Hidx Hdata Hi.
  rewrite (add_evec_target w ivec nitems idx data rest Hin Hidx Hdata).
  unfold mbind, M_bind. by rewrite Array_at_None.
Qed.

Lemma dispatch_fault fuel w c rest (handler : M unit) f w' :
  inbox w = ints [c] :: rest → to_uchar c < NTOKENS →
  FTABLE !! Z.to_nat (to_uchar c) = Some handler →
  handler (code_received rest w) = Fault f w' →
  dispatch (S fuel) w = Some (Fault f w').
Proof.
  intros Hin Hc Hh Hf.
  destruct (dispatch_in_range fuel w c rest Hin Hc) as (h & Hh' & ->).
  simplify_eq.
  unfold mbind, P_bind, lift. cbv beta. by rewrite Hf.
Qed.

Lemma main_fault fuel dm progname w f w' :
  dispatch fuel (add_trace Init w) = Some (Fault f w') →
  main fuel dm [progname; "eventloop"%string] w = Some (Fault f w').
Proof.
  intros Hd. rewrite main_eventloop. unfold eventloop.
  unfold mbind at 1, P_bind at 1.
  erewrite P_bind_Ok by reflexivity.
  unfold mbind at 1, P_bind at 1. by rewrite Hd.
Qed.


(** ** The target of an accumulation *)

(** The loop of [add_evec] leaves the vector with all the items added. *)
Lemma sum_items_all vec idx data v v' w :
  vector_heap w !! vec = Some v →
  sum_all v idx data = Some v' →
  sum_items vec idx data w =
    Ok tt (set_vector_heap (λ h, <[vec := v']> h) w).
Proof.
  revert data v w. induction idx as [|i idx IH]; intros data v w Hv Hsum.
  - assert (v' = v) as -> by (destruct data; simpl in Hsum; congruence).
    destruct data; simpl; unfold mret, M_ret, set_vector_heap;
      rewrite list_insert_id by done; by destruct w.
  - destruct data as [|x data].
    { simpl in Hsum. simplify_eq. simpl. unfold mret, M_ret, set_vector_heap.
      rewrite list_insert_id by done. by destruct w. }
    simpl in Hsum.
    destruct (sumIntoGlobalValue v i x) as [v1|] eqn:Hv1; [|done].
    simpl in Hsum.
    change (sum_items vec (i :: idx) (x :: data)) with
      (rcp_sumIntoGlobalValue vec i x;; sum_items vec idx data).
    erewrite M_bind_Ok; last first.
    { unfold rcp_sumIntoGlobalValue. unfold mbind, M_bind, get_world.
      rewrite Hv, Hv1. reflexivity. }
    rewrite (IH data v1 _); [| |done].
    + unfold set_vector_heap. simpl. by rewrite list_insert_insert_eq.
    + simpl. apply list_lookup_insert_eq. by apply lookup_lt_Some in Hv.
Qed.

Lemma worker_inbox_app r script1 script2 :
  worker_inbox r (script1 ++ script2) =
    worker_inbox r script1 ++ worker_inbox r script2.
Proof. unfold worker_inbox. apply bind_app. Qed.

Lemma worker_inbox_AccumulateVector r target ivec idx data :
  worker_inbox r (AccumulateVector target ivec idx data) =
    ints [Z.of_nat target] ::
    if bool_decide (target = r)
    then [ints [ivec]; ints [Array_size idx]; ints idx; doubles data]
    else [].
Proof. unfold worker_inbox, AccumulateVector. simpl. by case_bool_decide. Qed.

(** Resolving the vector and adding the items completes no exchange. *)
Lemma resolve_sum_trace table ivec idx data w :
  trace (final ((vec ← Array_at table ivec; sum_items vec idx data) w)) =
    trace w.
Proof.
  unfold mbind, M_bind, Array_at.
  case_bool_decide; [|done].
  destruct (table !! Z.to_nat ivec) as [vec|]; [|done]. simpl.
  apply sum_items_final.
Qed.

Lemma performs_receive_other w rank rest :
  inbox w = ints [rank] :: rest → rank ≠ Z.of_nat (comm_rank w) →
  performs_receive w = false.
Proof.
  intros Hin Hr. unfold performs_receive.
  rewrite (add_evec_other w rank rest Hin Hr). simpl.
  by rewrite drop_app_length.
Qed.

Lemma performs_receive_target w ivec nitems idx data rest :
  inbox w = ints [Z.of_nat (comm_rank w)] :: ints [ivec] :: ints [nitems] ::
            ints idx :: doubles data :: rest →
  Array_size idx = nitems → Array_size data = nitems →
  performs_receive w = true.
Proof.
  intros Hin Hidx Hdata. unfold performs_receive.
  rewrite (add_evec_target w ivec nitems idx data rest Hin Hidx Hdata).
  rewrite resolve_sum_trace. simpl. by rewrite drop_app_length.
Qed.


(** ** Fresh vectors, accumulation and reading *)

Lemma index_of_Some g l p : index_of g l = Some p → l !! p = Some g.
Proof.
  revert p. induction l as [|x l IH]; intros p; simpl; [done|].
  case_bool_decide; [by intros [= <-]; subst|].
  destruct (index_of g l) as [q|]; simpl; [|done].
  intros [= <-]. by apply IH.
Qed.

Lemma getLocalElement_lt m g p :
  getLocalElement m g = Some p → (p < getNodeNumElements m)%nat.
Proof.
  intros H%index_of_Some. by apply lookup_lt_Some in H.
Qed.

Lemma sumIntoGlobalValue_Some v i x p old :
  getLocalElement (vector_map v) i = Some p →
  vector_data v !! p = Some old →
  sumIntoGlobalValue v i x =
    Some {| vector_map := vector_map v;
            vector_data := <[p := scalar_add old x]> (vector_data v) |}.
Proof.
  intros Hp Hold. unfold sumIntoGlobalValue. rewrite Hp. simpl.
  by rewrite Hold.
Qed.

(** One item added through the pointer. *)
Lemma sum_items_one vec i x v p old w :
  vector_heap w !! vec = Some v →
  getLocalElement (vector_map v) i = Some p →
  vector_data v !! p = Some old →
  sum_items vec [i] [x] w =
    Ok tt
      (set_vector_heap (λ h,
         <[vec := {| vector_map := vector_map v;
                     vector_data := <[p := scalar_add old x]> (vector_data v) |}]> h)
         w).
Proof.
  destruct w as [t h r inb tr co]. simpl. intros Hv Hp Hold.
  exec. rewrite Hv.
  by rewrite (sumIntoGlobalValue_Some v i x p old Hp Hold).
Qed.

Lemma contribution_last w tr o data :
  trace w = tr ++ [o; Gatherv MPI_SCALAR (doubles data)] →
  contribution w = Some data.
Proof. intros Ht. unfold contribution. by rewrite Ht, last_app. Qed.

Lemma worker_inbox_CreateVector r imap :
  worker_inbox r (CreateVector imap) = [ints [imap]].
Proof. reflexivity. Qed.

Lemma worker_inbox_ReadVector r ivec :
  worker_inbox r (ReadVector ivec) = [ints [ivec]].
Proof. reflexivity. Qed.

Lemma exchanged_nil w : exchanged [] (inbox w) w = w.
Proof. destruct w. unfold exchanged. simpl. by rewrite app_nil_r. Qed.

(** The state in which a vector created from map [m] has just been stored:
    its handle is the length the table had, and its entries are zero. *)
Lemma new_vector_fresh w imap m rest :
  inbox w = ints [imap] :: rest →
  0 ≤ imap → MAPS (registry w) !! Z.to_nat imap = Some m →
  Array_size (VECTORS (registry w)) < 2 ^ 31 →
  ∃ w1, new_vector w = Ok tt w1 ∧
    gathered_handle w1 = Some (Array_size (VECTORS (registry w))) ∧
    VECTORS (registry w1) !! Z.to_nat (Array_size (VECTORS (registry w))) =
      Some (length (vector_heap w)) ∧
    vector_heap w1 = vector_heap w ++ [vector_new m] ∧
    registry w1 =
      {| VECTORS := VECTORS (registry w) ++ [length (vector_heap w)];
         MATRICES := MATRICES (registry w); MAPS := MAPS (registry w);
         GRAPHS := GRAPHS (registry w) |} ∧
    inbox w1 = rest ∧ comm_rank w1 = comm_rank w.
Proof.
  intros Hin Hi Hm Hlen. eexists. split; [by eapply new_vector_run|].
  destruct w as [t h r i tr co]; simpl in *. split_and!; try done.
  - unfold gathered_handle. simpl. rewrite last_app. simpl.
    rewrite to_int_small; [done|]. unfold Array_size in *. lia.
  - unfold Array_size. rewrite Nat2Z.id. by apply list_lookup_middle.
Qed.

(** C10: on every worker, a vector just created from a map has all its
    locally owned entries equal to zero, and reading it before anything is
    accumulated gathers from the worker as many zeros as the map gives the
    worker elements. *)
Theorem fresh_vector_reads_zero r w imap m rest :
  comm_rank w = r →
  0 ≤ imap → MAPS (registry w) !! Z.to_nat imap = Some m →
  Array_size (VECTORS (registry w)) < 2 ^ 31 →
  inbox w =
    worker_inbox r
      (CreateVector imap ++ ReadVector (Array_size (VECTORS (registry w))))
    ++ rest →
  ∃ w1 vec w',
    new_vector w = Ok tt w1 ∧
    gathered_handle w1 = Some (Array_size (VECTORS (registry w))) ∧
    VECTORS (registry w1) !! Z.to_nat (Array_size (VECTORS (registry w))) =
      Some vec ∧
    vector_heap w1 !! vec = Some (vector_new m) ∧
    getData (vector_new m) = replicate (getNodeNumElements m) scalar_zero ∧
    get_vector w1 = Ok tt w' ∧
    contribution w' = Some (replicate (getNodeNumElements m) scalar_zero) ∧
    length (replicate (getNodeNumElements m) scalar_zero) =
      getNodeNumElements m.
Proof.
  intros _ Hi Hm Hlen Hin.
  rewrite worker_inbox_app, worker_inbox_CreateVector,
    worker_inbox_ReadVector in Hin. simpl in Hin.
  destruct (new_vector_fresh w imap m _ Hin Hi Hm Hlen)
    as (w1 & Hrun & Hh & Hvec & Hheap & Hreg & Hin1 & Hr1).
  assert (vector_heap w1 !! length (vector_heap w) = Some (vector_new m))
    as Hobj by (rewrite Hheap; by apply list_lookup_middle).
  eexists w1, _, _. split_and!; try done.
  - eapply get_vector_run; try done. unfold Array_size. lia.
  - eapply contribution_last. done.
  - apply length_replicate.
Qed.


(** ** The rows of a new graph *)

Lemma count_items_sum numcols nitems :
  Forall (λ n, 0 ≤ n) numcols → 0 ≤ nitems →
  nitems + foldr Z.add 0 numcols < 2 ^ 31 →
  count_items numcols nitems = nitems + foldr Z.add 0 numcols.
Proof.
  intros Hpos. revert nitems.
  induction Hpos as [|n numcols Hn Hpos IH]; intros nitems Hi Hsum; simpl in *.
  - lia.
  - assert (0 ≤ foldr Z.add 0 numcols) as Hs.
    { clear -Hpos. induction Hpos; simpl; lia. }
    rewrite to_int_small by lia. rewrite IH; lia.
Qed.

(** The loop inserts the slices of the spec, the k-th (from 0) under the
    index k: the index is the loop counter, whatever identifiers the worker
    owns. *)
Lemma insert_rows_slices numcols irow items offset g g' :
  insert_rows numcols irow items offset g = Some g' →
  g' = insert_slices irow
         (row_slices numcols (drop (Z.to_nat offset) items)) g.
Proof.
  revert irow offset g.
  induction numcols as [|size numcols IH]; intros irow offset g; simpl.
  - by intros [= <-].
  - unfold view. case_bool_decide as Hv; simpl; [|done].
    intros Hrun%IH. rewrite Hrun. f_equal.
    rewrite drop_drop. do 2 f_equal. lia.
Qed.

(** The graph a CreateGraph round stores. *)
Lemma new_graph_stored w w' :
  new_graph w = Ok tt w' →
  ∃ imap map numcols items rest,
    inbox w = ints [imap] :: ints numcols :: ints items :: rest ∧
    0 ≤ imap ∧ MAPS (registry w) !! Z.to_nat imap = Some map ∧
    length numcols = getNodeNumElements map ∧
    Array_size items = count_items numcols 0 ∧
    GRAPHS (registry w') =
      GRAPHS (registry w) ++
      [fillComplete
         (insert_slices 0 (row_slices numcols items) (graph_new map numcols))].
Proof.
  intros Hrun. pose proof (new_graph_effect w) as E. rewrite Hrun in E.
  destruct E as (imap & map & numcols & items & graph & rest & Hin & Hi & Hm &
                 Hn & Hitems & Hins & -> & _).
  apply insert_rows_slices in Hins. simpl in Hins. subst graph.
  exists imap, map, numcols, items, rest. split_and!; try done.
  unfold Array_size in Hn. lia.
Qed.

Lemma index_of_seq (j k : nat) :
  (j < k)%nat → index_of (Z.of_nat j) (Z.of_nat <$> seq 0 k) = Some j.
Proof.
  intros Hj.
  assert (∀ n s, (s ≤ j < s + n)%nat →
            index_of (Z.of_nat j) (Z.of_nat <$> seq s n) = Some (j - s)%nat)
    as H.
  { induction n as [|n IH]; intros s Hs; [lia|]. simpl.
    case_bool_decide as Hd.
    - apply Nat2Z.inj in Hd. subst. by rewrite Nat.sub_diag.
    - rewrite IH by lia. simpl. f_equal. lia. }
  rewrite H by lia. f_equal. lia.
Qed.

(** Where the identifiers the worker owns are 0, 1, ..., k-1 in this order,
    the loop counter is the identifier of the row it counts: every slice
    goes to its own row, and the rows of the graph are the slices. *)
Lemma insert_slices_own_rows m numcols (j : nat) slices done_rows :
  map_elementList m = Z.of_nat <$> seq 0 (j + length slices) →
  length done_rows = j →
  let g := {| graph_map := m; graph_numcols := numcols;
              graph_rows := done_rows ++ replicate (length slices) [];
              graph_nonlocal := []; graph_fillComplete := false |} in
  graph_rows (insert_slices (Z.of_nat j) slices g) = done_rows ++ slices ∧
  graph_nonlocal (insert_slices (Z.of_nat j) slices g) = [].
Proof.
  revert j done_rows.
  induction slices as [|indices slices IH]; intros j done_rows Hm Hj; simpl.
  - by rewrite app_nil_r.
  - unfold insertGlobalIndices, getLocalElement. simpl. rewrite Hm.
    rewrite index_of_seq by (simpl; lia). simpl.
    assert (alter (λ row, row ++ indices) j (done_rows ++ [] :: replicate (length slices) [])
            = (done_rows ++ [indices]) ++ replicate (length slices) []) as ->.
    { rewrite <-Hj, (alter_app_r_alt _ _ _ (length done_rows)) by lia.
      rewrite Nat.sub_diag. simpl. by rewrite <-app_assoc. }
    change (Z.of_nat j + 1) with (Z.succ (Z.of_nat j)).
    rewrite <-Nat2Z.inj_succ.
    destruct (IH (S j) (done_rows ++ [indices])) as [H1 H2].
    + rewrite Hm. do 2 f_equal. simpl. lia.
    + rewrite length_app. simpl. lia.
    + simpl in H1, H2. rewrite H1, H2. by rewrite <-app_assoc.
Qed.

Lemma row_slices_length numcols items :
  length (row_slices numcols items) = length numcols.
Proof.
  revert items. induction numcols as [|n numcols IH]; intros items; simpl;
    [done|by rewrite IH].
Qed.

Lemma new_graph_own_rows w w' imap map numcols items rest :
  inbox w = ints [imap] :: ints numcols :: ints items :: rest →
  0 ≤ imap → MAPS (registry w) !! Z.to_nat imap = Some map →
  map_elementList map = Z.of_nat <$> seq 0 (getNodeNumElements map) →
  new_graph w = Ok tt w' →
  ∃ g, GRAPHS (registry w') = GRAPHS (registry w) ++ [g] ∧
    graph_rows g = row_slices numcols items ∧ graph_nonlocal g = [] ∧
    graph_fillComplete g = true.
Proof.
  intros Hin Hi Hm Hown Hrun.
  destruct (new_graph_stored w w' Hrun)
    as (imap' & map' & numcols' & items' & rest' & Hin' & _ & Hm' & Hn & _ & ->).
  rewrite Hin in Hin'. injection Hin' as <- <- <- <-.
  rewrite Hm in Hm'. injection Hm' as <-.
  eexists. split; [done|].
  pose proof (row_slices_length numcols items) as Hl.
  destruct (insert_slices_own_rows map numcols 0
              (row_slices numcols items) []) as [H1 H2].
  - simpl. by rewrite Hl, Hn.
  - done.
  - unfold graph_new. rewrite <-Hn, <-Hl. simpl in *. done.
Qed.

(** C4, at worker 1 of a group of two whose map gives it the rows 2 and 3:
    the handler consumes two column counts and a buffer of their sum, cuts
    the buffer into the slices of the rows and seals the graph, but the
    slices are inserted under the indices 0 and 1 of the loop counter, rows
    of the other worker; the rows this worker owns stay empty. *)
Theorem new_graph_inserts_under_loop_counter :
  let m := {| map_size := 4; map_elementList := [2; 3];
              map_indexBase := indexBase |} in
  let w := {| registry := {| VECTORS := []; MATRICES := []; MAPS := [m];
                             GRAPHS := [] |};
              vector_heap := []; comm_rank := 1;
              inbox := [ints [0]; ints [1; 1]; ints [2; 3]];
              trace := []; cout := [] |} in
  ∃ g w',
    new_graph w = Ok tt w' ∧
    trace w' = [ Bcast MPI_HANDLE 1; Scatterv MPI_SIZE 2;
                 Scatterv MPI_GLOBAL 2; Gather MPI_HANDLE (ints [0]) ] ∧
    GRAPHS (registry w') = [g] ∧
    graph_fillComplete g = true ∧
    row_slices [1; 1] [2; 3] = [[2]; [3]] ∧
    graph_rows g = [[]; []] ∧
    graph_nonlocal g = [(0, [2]); (1, [3])].
Proof. eexists _, _. split; [vm_compute; reflexivity|]. by split_and!. Qed.

(** Where the identifiers a worker owns are its own row numbers, the rows it
    has inserted are the slices. *)
Example new_graph_rows_of_first_worker :
  let m := {| map_size := 4; map_elementList := [0; 1];
              map_indexBase := indexBase |} in
  let w := {| registry := {| VECTORS := []; MATRICES := []; MAPS := [m];
                             GRAPHS := [] |};
              vector_heap := []; comm_rank := 0;
              inbox := [ints [0]; ints [1; 2]; ints [0; 0; 1]];
              trace := []; cout := [] |} in
  ∃ g w',
    new_graph w = Ok tt w' ∧ GRAPHS (registry w') = [g] ∧
    graph_rows g = row_slices [1; 2] [0; 0; 1] ∧ graph_nonlocal g = [].
Proof. eexists _, _. split; [vm_compute; reflexivity|]. by split_and!. Qed.

(** ** The widths of the wire fields *)

Lemma printed_bits_exchanged dm k :
  k ≠ kind_size → printed_bits dm k = exchanged_bits dm k.
Proof.
  intros Hk. unfold printed_bits, exchanged_bits.
  destruct k; try done; simpl; rewrite Z.shiftl_mul_pow2 by lia; lia.
Qed.

Lemma printed_bits_size dm :
  printed_bits dm kind_size = exchanged_bits dm kind_size ↔
  sizeof_size_t dm = sizeof_int.
Proof.
  unfold printed_bits, exchanged_bits. simpl.
  rewrite Z.shiftl_mul_pow2 by lia. unfold sizeof_int. lia.
Qed.

(** C9, on LP64: [info] prints for each kind of field but [size] the width
    the fields of the kind are exchanged with; for [size] it prints 64, the
    width of [size_t], while the handlers exchange fields of kind size as
    MPI_SIZE, which is MPI_INT, 32 bits wide. *)
Theorem info_size_width_differs_on_LP64 :
  (∀ dm,
     printed_bits dm kind_local = exchanged_bits dm kind_local ∧
     printed_bits dm kind_global = exchanged_bits dm kind_global ∧
     printed_bits dm kind_handle = exchanged_bits dm kind_handle ∧
     printed_bits dm kind_scalar = exchanged_bits dm kind_scalar) ∧
  printed_bits LP64 kind_size = 64 ∧
  exchanged_bits LP64 kind_size = 32 ∧
  (∃ w', main 0 LP64 ["libmatrix"; "info"]%string (start 0 []) =
           Some (Ok 0 w') ∧
         cout w' =
           [ "token: enum(new_matrix, new_vector, add_evec, get_vector, new_map, new_graph)";
             "local: int32"; "global: int64"; "size: int64";
             "handle: int32"; "scalar: float64" ]%string) ∧
  (∃ w', new_map (start 0 [ints [4]; ints [2]; ints [0; 1]]) = Ok tt w' ∧
         trace w' = [ Bcast MPI_SIZE 1; Scatter MPI_SIZE 1;
                      Scatterv MPI_GLOBAL 2; Gather MPI_HANDLE (ints [0]) ] ∧
         8 * Datatype_size LP64 MPI_SIZE = 32).
Proof.
  split_and!.
  - intros dm. split_and!; by apply printed_bits_exchanged.
  - reflexivity.
  - reflexivity.
  - eexists. split; [vm_compute; reflexivity|reflexivity].
  - eexists. split; [vm_compute; reflexivity|]. by split.
Qed.

(** ** Fuel

    A session is what the loop runs through, and the loop always has an
    outcome when it is given more fuel than there are messages. *)

Lemma session_dispatch w0 hist w fuel :
  session w0 hist w → dispatch (length hist + fuel) w0 = dispatch fuel w.
Proof.
  induction 1 as [w|w code w1 hist w2 Hr Hs IH]; [done|].
  destruct Hr as (c & rest & handler & Hin & Hcode & Hh & Hrun).
  assert (to_uchar c < NTOKENS) as Hc.
  { apply lookup_lt_Some in Hh. change (length FTABLE) with 6%nat in Hh.
    rewrite NTOKENS_6. pose proof (to_uchar_range c). lia. }
  change (length (_ :: hist) + fuel)%nat with (S (length hist + fuel)).
  destruct (dispatch_in_range (length hist + fuel) w c rest Hin Hc)
    as (h & Hh' & ->).
  rewrite Hcode in Hh'. simplify_eq.
  unfold mbind, P_bind, lift. cbv beta. by rewrite Hrun.
Qed.

Lemma handler_inbox code (handler : M unit) w w' :
  FTABLE !! code = Some handler → handler w = Ok tt w' →
  (length (inbox w') ≤ length (inbox w))%nat.
Proof.
  intros Hh Hrun. destruct code as [|[|[|[|[|[|?]]]]]]; simplify_eq/=.
  - pose proof (new_matrix_effect w) as E. rewrite Hrun in E.
    destruct E as (?&?&?&->&?&?&?&?&->&?). simpl. lia.
  - pose proof (new_vector_effect w) as E. rewrite Hrun in E.
    destruct E as (?&?&?&->&?&?&?&?&->&?). simpl. lia.
  - pose proof (add_evec_effect w) as E. rewrite Hrun in E.
    destruct E as (?&?&->&?&?&?&?&E). case_bool_decide.
    + destruct E as (?&->&?). simpl. lia.
    + destruct E as (?&?&?&?&?&->&?&?&->&?). simpl. lia.
  - pose proof (get_vector_effect w) as E. rewrite Hrun in E.
    destruct E as (?&?&?&?&->&?&?&?&?&?&->&?). simpl. lia.
  - pose proof (new_map_effect w) as E. rewrite Hrun in E.
    destruct E as (?&?&?&?&->&?&?&?&->&?). simpl. lia.
  - pose proof (new_graph_effect w) as E. rewrite Hrun in E.
    destruct E as (?&?&?&?&?&?&->&?&?&?&?&?&?&?&->&?). simpl. lia.
Qed.

Lemma dispatch_total fuel w :
  (length (inbox w) < fuel)%nat → ∃ r, dispatch fuel w = Some r.
Proof.
  revert w. induction fuel as [|fuel IH]; intros w Hlen; [lia|].
  destruct (inbox w) as [|b rest] eqn:Hin.
  { destruct w as [t h r i tr co]. simpl in Hin. subst. simpl. exec. eauto. }
  destruct b as [l|l]; [destruct l as [|c [|]]|];
    try (destruct w as [t h r i tr co]; simpl in Hin; subst; simpl; exec;
         cases; eauto; fail).
  rewrite (dispatch_round fuel w c rest Hin).
  case_bool_decide as Hc; [eauto|].
  destruct (FTABLE_lookup c) as (handler & Hh & ->); [lia|].
  unfold mbind, P_bind, lift. cbv beta.
  destruct (handler (code_received rest w)) as [[] w'|w'|f w'] eqn:Hrun; eauto.
  apply IH. pose proof (handler_inbox _ handler _ w' Hh Hrun) as Hle.
  simpl in *. lia.
Qed.

(** * Further properties of the handlers, the loop and [main] *)

(** ** What a handler touches *)

Lemma is_exchange_ops ops :
  Forall (λ o, exchange_of o ≠ None) ops → Forall is_exchange ops.
Proof.
  intros H. eapply Forall_impl; [exact H|].
  intros o Ho. unfold is_exchange. destruct (exchange_of o) eqn:E; [by eexists|congruence].
Qed.

Ltac footprint :=
  simpl; split_and!; try done;
  lazymatch goal with
  | |- ex _ =>
      first [ by (exists []; rewrite app_nil_r; split; [|constructor])
            | rewrite <-?app_assoc; eexists; split; [reflexivity|];
              apply is_exchange_ops; simpl;
              repeat (constructor; [done|]); constructor ]
  | |- _ `suffix_of` _ => repeat first [ reflexivity | apply suffix_cons_r ]
  end.

Lemma handler_footprint code (handler : M unit) w :
  FTABLE !! code = Some handler →
  (∃ ops, trace (final (handler w)) = trace w ++ ops ∧
          Forall is_exchange ops) ∧
  inbox (final (handler w)) `suffix_of` inbox w ∧
  comm_rank (final (handler w)) = comm_rank w ∧
  cout (final (handler w)) = cout w.
Proof.
  intros Hh. destruct w as [t h r i tr co].
  destruct code as [|[|[|[|[|[|?]]]]]]; simplify_eq/=.
  - unfold new_matrix. exec. cases; footprint.
  - unfold new_vector. exec. cases; footprint.
  - unfold add_evec. exec.
    cases;
      try match goal with
          | |- context [sum_items ?v ?i ?d ?w0] =>
              pose proof (sum_items_final v i d w0) as F; simpl in F;
              destruct F as (_&F1&F2&F3&F4&_); rewrite ?F1, ?F2, ?F3, ?F4
          end; footprint.
  - unfold get_vector. exec. cases; footprint.
  - unfold new_map. exec. cases; footprint.
  - unfold new_graph. exec. cases; footprint.
Qed.

(** X1: whatever a handler does and however it ends, it takes the messages
    it consumes from the front of the inbox, in order, and adds to the trace
    only exchanges with the controller (never [Init], [Disconnect] or
    [Finalize]), after what was there; it leaves the rank and the standard
    output alone. *)
Theorem handlers_consume_in_order code (handler : M unit) w :
  FTABLE !! code = Some handler →
  (∃ ops, trace (final (handler w)) = trace w ++ ops ∧
          Forall is_exchange ops) ∧
  inbox (final (handler w)) `suffix_of` inbox w ∧
  comm_rank (final (handler w)) = comm_rank w ∧
  cout (final (handler w)) = cout w.
Proof. apply handler_footprint. Qed.

(** ** The shape of a session *)

(** One round of the loop, by what the worker finds in its inbox. *)
Lemma dispatch_step fuel w :
  dispatch (S fuel) w =
    match inbox w with
    | [] => Some (Blocked w)
    | ints [c] :: rest =>
        if bool_decide (NTOKENS ≤ to_uchar c)
        then Some (Ok tt (code_received rest w))
        else (lift (nth (Z.to_nat (to_uchar c)) FTABLE (mret tt));;
              dispatch fuel) (code_received rest w)
    | _ :: rest => Some (Fault ProtocolDesync (set_inbox rest w))
    end.
Proof.
  destruct (inbox w) as [|b rest] eqn:Hin.
  { destruct w as [t h r i tr co]. simpl in Hin. subst. reflexivity. }
  destruct b as [[|c [|c' l]]|l]; [| by apply dispatch_round |..];
    destruct w as [t h r i tr co]; simpl in Hin; subst; simpl; exec;
    cases; try done; unfold Array_size in *; simpl in *; lia.
Qed.

Lemma dispatch_trace fuel w res :
  dispatch fuel w = Some res →
  ∃ ops, trace (final res) = trace w ++ ops ∧ Forall is_exchange ops ∧
    (∀ w', res = Ok tt w' → last ops = Some (Bcast MPI_CHAR 1)).
Proof.
  revert w. induction fuel as [|fuel IH]; intros w; [done|].
  rewrite dispatch_step.
  destruct (inbox w) as [|[[|c [|c' l]]|l] rest] eqn:Hin;
    try (intros [= <-]; exists []; rewrite app_nil_r;
         split_and!; [done|constructor|done]).
  case_bool_decide as Hc.
  { intros [= <-]. exists [Bcast MPI_CHAR 1]. split_and!; [done| |done].
    apply is_exchange_ops. by repeat constructor. }
  destruct (FTABLE_lookup c) as (handler & Hh & ->); [lia|].
  unfold mbind, P_bind, lift. cbv beta.
  destruct (handler_footprint _ handler (code_received rest w) Hh)
    as ((ops1 & Ht1 & Hops1) & _).
  assert (Forall is_exchange (Bcast MPI_CHAR 1 :: ops1)) as Hops.
  { constructor; [by eexists|done]. }
  destruct (handler (code_received rest w)) as [[] w1|w1|f w1]; simpl in Ht1.
  - intros Hrun. destruct (IH w1 Hrun) as (ops2 & Ht2 & Hops2 & Hlast).
    exists (Bcast MPI_CHAR 1 :: ops1 ++ ops2). split_and!.
    + rewrite Ht2, Ht1. by rewrite <-!app_assoc.
    + rewrite (app_comm_cons ops1 ops2). apply Forall_app. by split.
    + intros w' ->. rewrite (app_comm_cons ops1 ops2), last_app.
      by rewrite (Hlast w' eq_refl).
  - intros [= <-]. exists (Bcast MPI_CHAR 1 :: ops1). split_and!; try done.
    simpl. rewrite Ht1. by rewrite <-app_assoc.
  - intros [= <-]. exists (Bcast MPI_CHAR 1 :: ops1). split_and!; try done.
    simpl. rewrite Ht1. by rewrite <-app_assoc.
Qed.

Lemma eventloop_outcome fuel progname w :
  eventloop fuel progname w =
    match dispatch fuel (add_trace Init w) with
    | Some (Ok _ w') =>
        Some (Ok tt (add_trace Finalize (add_trace Disconnect w')))
    | other => other
    end.
Proof.
  unfold eventloop. erewrite P_bind_Ok by reflexivity.
  unfold mbind, P_bind.
  by destruct (dispatch fuel (add_trace Init w)) as [[[] w'|w'|f w']|].
Qed.

(** X2: a session starts with [Init]; after it the worker only exchanges
    data with the controller; [Disconnect] and [Finalize] come last, and
    only when the loop has ended on a command code it has just received.  A
    worker that blocks or faults never disconnects. *)
Theorem eventloop_trace fuel progname w res :
  eventloop fuel progname w = Some res →
  ∃ ops, Forall is_exchange ops ∧
    match res with
    | Ok _ w' =>
        trace w' = trace w ++ [Init] ++ ops ++ [Disconnect; Finalize] ∧
        last ops = Some (Bcast MPI_CHAR 1)
    | Blocked w' | Fault _ w' => trace w' = trace w ++ [Init] ++ ops
    end.
Proof.
  rewrite eventloop_outcome.
  destruct (dispatch fuel (add_trace Init w)) as [r|] eqn:Hd; [|done].
  destruct (dispatch_trace _ _ _ Hd) as (ops & Ht & Hops & Hlast).
  intros Hres. exists ops. split; [done|].
  destruct r as [[] w'|w'|f w']; injection Hres as <-; simpl in *.
  - rewrite Ht. split; [by rewrite <-!app_assoc|by eapply Hlast].
  - rewrite Ht. by rewrite <-!app_assoc.
  - rewrite Ht. by rewrite <-!app_assoc.
Qed.

(** ** Consistent registries *)

Lemma sumIntoGlobalValue_shape v i x v' :
  sumIntoGlobalValue v i x = Some v' →
  vector_map v' = vector_map v ∧
  length (vector_data v') = length (vector_data v).
Proof.
  unfold sumIntoGlobalValue. intros H.
  destruct (getLocalElement (vector_map v) i) as [lid|]; simpl in H; [|done].
  destruct (vector_data v !! lid) as [old|]; simpl in H; [|done].
  injection H as <-. simpl. by rewrite length_insert.
Qed.

(** What holds of the vector objects before the loop of [add_evec] and is
    kept by every single addition holds when the loop ends, however it
    ends. *)
Lemma sum_items_heap_inv (Q : list vector_t → Prop) vec idx data w :
  Q (vector_heap w) →
  (∀ h v i x v',
     Q h → h !! vec = Some v → sumIntoGlobalValue v i x = Some v' →
     Q (<[vec := v']> h)) →
  Q (vector_heap (final (sum_items vec idx data w))).
Proof.
  intros HQ Hstep. revert data w HQ.
  induction idx as [|i idx IH]; intros [|x data] w HQ; try done.
  simpl. exec. destruct w as [t h r inb tr co]; simpl in *.
  destruct (h !! vec) as [v|] eqn:Hv; [|done].
  destruct (sumIntoGlobalValue v i x) as [v'|] eqn:Hv'; [|done].
  simpl. apply IH. simpl. by eapply Hstep.
Qed.

Lemma add_evec_heap_inv (Q : list vector_t → Prop) w :
  Q (vector_heap w) →
  (∀ rank ivec rest vec,
     inbox w = ints [rank] :: ints [ivec] :: rest →
     0 ≤ ivec → VECTORS (registry w) !! Z.to_nat ivec = Some vec →
     ∀ h v i x v',
       Q h → h !! vec = Some v → sumIntoGlobalValue v i x = Some v' →
       Q (<[vec := v']> h)) →
  Q (vector_heap (final (add_evec w))).
Proof.
  destruct w as [t h r i tr co]. simpl. intros HQ Hstep.
  unfold add_evec. exec. cases; try done.
  all: match goal with
       | |- context [sum_items ?v ?i ?d ?w0] =>
           apply (sum_items_heap_inv Q v i d w0); [done|];
           by eapply Hstep
       end.
Qed.

Lemma add_evec_registry w : registry (final (add_evec w)) = registry w.
Proof.
  pose proof (add_evec_effect w) as E.
  destruct (add_evec w); simpl; [|done..]. by destruct E as (?&?&?&?&?).
Qed.

Lemma consistent_same w w' :
  registry w' = registry w → vector_heap w' = vector_heap w →
  consistent w → consistent w'.
Proof. unfold consistent. by intros -> ->. Qed.

Lemma insertGlobalIndices_shape g row indices :
  graph_map (insertGlobalIndices g row indices) = graph_map g ∧
  length (graph_rows (insertGlobalIndices g row indices)) =
    length (graph_rows g).
Proof.
  unfold insertGlobalIndices.
  destruct (getLocalElement (graph_map g) row); simpl; [|done].
  by rewrite length_alter.
Qed.

Lemma insert_slices_shape irow slices g :
  graph_map (insert_slices irow slices g) = graph_map g ∧
  length (graph_rows (insert_slices irow slices g)) = length (graph_rows g).
Proof.
  revert irow g. induction slices as [|s slices IH]; intros irow g; [done|].
  simpl. destruct (IH (irow + 1) (insertGlobalIndices g irow s)) as [-> ->].
  apply insertGlobalIndices_shape.
Qed.

(** Every handler keeps the registries consistent, however it ends. *)
Lemma handler_consistent code (handler : M unit) w :
  FTABLE !! code = Some handler →
  consistent w → consistent (final (handler w)).
Proof.
  intros Hh (HV & Hvec & Hgr & Hmat).
  destruct code as [|[|[|[|[|[|?]]]]]]; simplify_eq/=.
  - pose proof (new_matrix_effect w) as E.
    destruct (new_matrix w) as [[] w'|w'|f w']; simpl;
      [|by eapply consistent_same; [apply E..|]..].
    destruct E as (?&g&?&?&?&Hg&Hreg&Hheap&?).
    unfold consistent. rewrite Hreg, Hheap. simpl. split_and!; try done.
    apply Forall_app. split; [done|].
    constructor; [|constructor]. simpl. by eapply list_elem_of_lookup_2.
  - pose proof (new_vector_effect w) as E.
    destruct (new_vector w) as [[] w'|w'|f w']; simpl;
      [|by eapply consistent_same; [apply E..|]..].
    destruct E as (?&m&?&?&?&Hm&Hreg&Hheap&?).
    unfold consistent. rewrite Hreg, Hheap. simpl. split_and!; try done.
    + rewrite HV, length_app. simpl. by rewrite seq_app.
    + apply Forall_app. split; [done|]. constructor; [|constructor].
      split; [apply length_replicate|by eapply list_elem_of_lookup_2].
  - unfold consistent. rewrite add_evec_registry.
    pose proof (add_evec_heap_inv
      (λ h, length h = length (vector_heap w) ∧
            Forall (vector_ok (registry w)) h) w) as Hinv.
    destruct Hinv as [Hl Hok]; [done| |by rewrite Hl].
    intros _ _ _ vec _ _ _ h v i x v' [Hl Hok] Hv Hv'.
    split; [by rewrite length_insert|].
    apply Forall_insert; [done|].
    destruct (sumIntoGlobalValue_shape v i x v' Hv') as [Hm Hlen].
    pose proof (Forall_lookup_1 _ _ _ _ Hok Hv) as [Hv1 Hv2].
    split; [by rewrite Hlen, Hm|by rewrite Hm].
  - pose proof (get_vector_effect w) as E.
    destruct (get_vector w) as [[] w'|w'|f w']; simpl;
      [|by eapply consistent_same; [apply E..|]..].
    destruct E as (?&?&?&?&?&?&?&?&Hreg&Hheap&?).
    by eapply consistent_same.
  - pose proof (new_map_effect w) as E.
    destruct (new_map w) as [[] w'|w'|f w']; simpl;
      [|by eapply consistent_same; [apply E..|]..].
    destruct E as (?&?&?&?&?&?&Hreg&Hheap&?).
    unfold consistent. rewrite Hreg, Hheap. simpl. split_and!; try done.
    + eapply Forall_impl; [exact Hvec|]. intros v [Hv1 Hv2].
      split; [done|]. simpl. apply elem_of_app. by left.
    + eapply Forall_impl; [exact Hgr|]. intros g (Hg1 & Hg2 & Hg3).
      split_and!; [done| |done]. simpl. apply elem_of_app. by left.
  - pose proof (new_graph_effect w) as E.
    destruct (new_graph w) as [[] w'|w'|f w'] eqn:Hrun; simpl;
      [|by eapply consistent_same; [apply E..|]..].
    destruct E as (imap&m&numcols&items&graph&?&?&?&Hm&?&?&Hins&Hreg&Hheap&?).
    apply insert_rows_slices in Hins. simpl in Hins. subst graph.
    unfold consistent. rewrite Hreg, Hheap. simpl. split_and!; try done.
    + apply Forall_app. split; [done|]. constructor; [|constructor].
      destruct (insert_slices_shape 0
                  (row_slices numcols (drop (Z.to_nat 0) items))
                  (graph_new m numcols)) as [Hmap Hrows].
      unfold graph_ok, fillComplete. simpl. rewrite Hrows, Hmap. simpl.
      split_and!; [done|by eapply list_elem_of_lookup_2|].
      apply length_replicate.
    + eapply Forall_impl; [exact Hmat|]. intros mt Hmt.
      apply elem_of_app. by left.
Qed.

Lemma start_consistent r msgs : consistent (start r msgs).
Proof. unfold consistent, start. simpl. by split_and!. Qed.

Lemma dispatch_consistent fuel w res :
  consistent w → dispatch fuel w = Some res → consistent (final res).
Proof.
  revert w. induction fuel as [|fuel IH]; intros w Hw; [done|].
  rewrite dispatch_step.
  destruct (inbox w) as [|[[|c [|c' l]]|l] rest] eqn:Hin;
    try (intros [= <-]; by eapply consistent_same).
  case_bool_decide as Hc.
  { intros [= <-]. by eapply consistent_same. }
  destruct (FTABLE_lookup c) as (handler & Hh & ->); [lia|].
  unfold mbind, P_bind, lift. cbv beta.
  assert (consistent (code_received rest w)) as Hw1
    by (by eapply consistent_same).
  pose proof (handler_consistent _ handler _ Hh Hw1) as Hw2.
  destruct (handler (code_received rest w)) as [[] w1|w1|f w1]; simpl in Hw2.
  - by apply IH.
  - by intros [= <-].
  - by intros [= <-].
Qed.

(** X3: the registries are consistent at process start, every handler keeps
    them so, and so they are however and wherever a session ends: every
    vector handle has a vector object of its own with one entry per element
    its map gives the worker, vectors and graphs are over stored maps, every
    stored graph is sealed with one row per element of its map, and every
    matrix is over a stored graph. *)
Theorem registries_stay_consistent :
  (∀ r msgs, consistent (start r msgs)) ∧
  (∀ code (handler : M unit) w,
     FTABLE !! code = Some handler →
     consistent w → consistent (final (handler w))) ∧
  (∀ fuel progname w res,
     consistent w → eventloop fuel progname w = Some res →
     consistent (final res)).
Proof.
  split_and!.
  - apply start_consistent.
  - apply handler_consistent.
  - intros fuel progname w res Hw. rewrite eventloop_outcome.
    assert (consistent (add_trace Init w)) as Hw0
      by (by eapply consistent_same).
    destruct (dispatch fuel (add_trace Init w)) as [r|] eqn:Hd; [|done].
    pose proof (dispatch_consistent _ _ _ Hw0 Hd) as Hr.
    by destruct r as [[] w'|w'|f w']; intros [= <-]; simpl in *.
Qed.

(** ** Reading and accumulating in a consistent state *)

Lemma consistent_pointer w (h p : nat) :
  consistent w → VECTORS (registry w) !! h = Some p →
  p = h ∧ ∃ v, vector_heap w !! p = Some v ∧ vector_ok (registry w) v.
Proof.
  intros (HV & Hvec & _) Hp. rewrite HV in Hp.
  apply lookup_seq in Hp as [-> Hlt]. split; [done|].
  destruct (lookup_lt_is_Some_2 (vector_heap w) h Hlt) as [v Hv].
  exists v. split; [done|]. by eapply Forall_lookup_1.
Qed.

(** X4: in a consistent state a ReadVector round with a handle inside the
    table always completes: it gathers all the values of the vector of that
    handle, one per element the vector's map gives the worker, and changes
    neither the registries nor any vector. *)
Theorem read_vector_completes w ivec rest :
  consistent w →
  inbox w = ints [ivec] :: rest →
  0 ≤ ivec < Array_size (VECTORS (registry w)) →
  ∃ v, vector_heap w !! Z.to_nat ivec = Some v ∧
    get_vector w =
      Ok tt (exchanged
               [ Bcast MPI_HANDLE 1;
                 Gatherv MPI_SCALAR (doubles (vector_data v)) ] rest w) ∧
    length (vector_data v) = getNodeNumElements (vector_map v) ∧
    vector_map v ∈ MAPS (registry w).
Proof.
  intros Hw Hin Hi.
  destruct (lookup_lt_is_Some_2 (VECTORS (registry w)) (Z.to_nat ivec))
    as [p Hp]; [unfold Array_size in Hi; lia|].
  destruct (consistent_pointer w _ p Hw Hp) as (-> & v & Hv & Hok1 & Hok2).
  exists v. split_and!; try done.
  apply (get_vector_run w ivec (Z.to_nat ivec) v rest); [done|lia|done..].
Qed.

(** X5: an AccumulateVector round changes no vector but the one whose handle
    the worker receives, however the round ends: vectors do not share their
    values, also when they are over the same map. *)
Theorem accumulate_touches_one_vector w (h p : nat) :
  consistent w →
  VECTORS (registry w) !! h = Some p →
  (∀ rank rest, inbox w ≠ ints [rank] :: ints [Z.of_nat h] :: rest) →
  VECTORS (registry (final (add_evec w))) !! h = Some p ∧
  vector_heap (final (add_evec w)) !! p = vector_heap w !! p.
Proof.
  intros Hw Hp Hother.
  split; [by rewrite add_evec_registry|].
  destruct (consistent_pointer w h p Hw Hp) as (-> & _).
  apply (add_evec_heap_inv (λ hp, hp !! h = vector_heap w !! h)); [done|].
  intros rank ivec rest vec Hin Hi Hvec hp v i x v' HQ _ _.
  destruct (consistent_pointer w _ vec Hw Hvec) as (-> & _).
  rewrite list_lookup_insert_ne; [done|].
  intros Heq. apply (Hother rank rest). rewrite Hin.
  by assert (ivec = Z.of_nat h) as -> by lia.
Qed.

(** ** Accumulating in several rounds *)

Lemma sum_all_app v idx1 data1 idx2 data2 :
  length data1 = length idx1 →
  sum_all v (idx1 ++ idx2) (data1 ++ data2) =
    v' ← sum_all v idx1 data1; sum_all v' idx2 data2.
Proof.
  revert v data1. induction idx1 as [|i idx1 IH]; intros v [|x data1] Hlen;
    try done.
  simpl. destruct (sumIntoGlobalValue v i x) as [v1|]; simpl; [|done].
  apply IH. simpl in Hlen. lia.
Qed.

Lemma add_evec_sums w ivec vec v v' idx data rest :
  inbox w = AccumulateVector_messages (comm_rank w) ivec idx data ++ rest →
  length data = length idx →
  0 ≤ ivec → VECTORS (registry w) !! Z.to_nat ivec = Some vec →
  vector_heap w !! vec = Some v →
  sum_all v idx data = Some v' →
  add_evec w =
    Ok tt
      (set_vector_heap (λ h, <[vec := v']> h)
         (exchanged
            [ Bcast MPI_SIZE 1; Recv MPI_HANDLE 1; Recv MPI_SIZE 1;
              Recv MPI_GLOBAL (Array_size idx);
              Recv MPI_SCALAR (Array_size idx) ] rest w)).
Proof.
  intros Hin Hlen Hi Hvec Hv Hsum.
  rewrite (add_evec_target w ivec (Array_size idx) idx data rest Hin);
    [|done|by unfold Array_size; rewrite Hlen].
  erewrite M_bind_Ok by (by apply Array_at_Some).
  by eapply sum_items_all.
Qed.


(** ** When a CreateGraph round completes *)

Lemma count_items_range numcols nitems :
  - 2 ^ 31 ≤ nitems < 2 ^ 31 →
  - 2 ^ 31 ≤ count_items numcols nitems < 2 ^ 31.
Proof.
  revert nitems. induction numcols as [|n numcols IH]; intros nitems Hn;
    simpl; [done|].
  apply IH. unfold to_int.
  pose proof (Z.mod_pos_bound (nitems + n + 2 ^ 31) (2 ^ 32)). lia.
Qed.

Lemma sum_nonneg numcols :
  Forall (λ n, 0 ≤ n) numcols → 0 ≤ foldr Z.add 0 numcols.
Proof. induction 1; simpl; lia. Qed.

Lemma insert_rows_is_Some numcols irow items offset g :
  0 ≤ offset ≤ Array_size items →
  is_Some (insert_rows numcols irow items offset g) ↔
  Forall (λ n, 0 ≤ n) numcols ∧
  offset + foldr Z.add 0 numcols ≤ Array_size items.
Proof.
  revert irow offset g.
  induction numcols as [|size numcols IH]; intros irow offset g Hoff; simpl.
  - split; [intros _; split; [constructor|lia]|by eexists].
  - unfold view. case_bool_decide as Hv; simpl.
    + rewrite IH by lia. split.
      * intros [Hpos Hsum]. split; [constructor; [lia|done]|lia].
      * intros [Hpos Hsum]. apply Forall_cons in Hpos as [? Hpos].
        split; [done|lia].
    + split; [by intros [? ?]|].
      intros [Hpos Hsum]. apply Forall_cons in Hpos as [? Hpos].
      pose proof (sum_nonneg _ Hpos). lia.
Qed.

Lemma row_slices_concat numcols items :
  Forall (λ n, 0 ≤ n) numcols →
  foldr Z.add 0 numcols = Array_size items →
  concat (row_slices numcols items) = items.
Proof.
  intros Hpos. revert items.
  induction Hpos as [|n numcols Hn Hpos IH]; intros items Hsum; simpl in *.
  - unfold Array_size in Hsum. destruct items; [done|simpl in Hsum; lia].
  - pose proof (sum_nonneg _ Hpos) as Hs.
    rewrite IH; [apply take_drop|].
    unfold Array_size in *. rewrite length_drop. lia.
Qed.

Lemma new_graph_run w imap map numcols items graph rest :
  inbox w = ints [imap] :: ints numcols :: ints items :: rest →
  0 ≤ imap → MAPS (registry w) !! Z.to_nat imap = Some map →
  Array_size numcols = Z.of_nat (getNodeNumElements map) →
  Array_size items = count_items numcols 0 →
  insert_rows numcols 0 items 0 (graph_new map numcols) = Some graph →
  ∃ w', new_graph w = Ok tt w'.
Proof.
  destruct w as [t h r i tr co]. simpl. intros -> Hi Hm Hn Hitems Hins.
  unfold new_graph. exec. decided. rewrite Hm. simpl.
  rewrite bool_decide_true by done. simpl.
  rewrite bool_decide_true by (rewrite <-Hitems; unfold Array_size; lia).
  simpl. rewrite bool_decide_true by done. simpl.
  rewrite Hins. simpl. eauto.
Qed.


(** ** From a map to a matrix *)

Lemma new_map_run w size elementList rest :
  inbox w = CreateMap_messages size elementList ++ rest →
  ∃ w', new_map w = Ok tt w' ∧
    registry w' =
      {| VECTORS := VECTORS (registry w);
         MATRICES := MATRICES (registry w);
         MAPS := MAPS (registry w) ++
           [ {| map_size := size; map_elementList := elementList;
                map_indexBase := indexBase |} ];
         GRAPHS := GRAPHS (registry w) |} ∧
    vector_heap w' = vector_heap w ∧ inbox w' = rest ∧
    gathered_handle w' = Some (to_int (Array_size (MAPS (registry w)))).
Proof.
  destruct w as [t h r i tr co]. simpl. intros ->.
  unfold new_map. exec. decided.
  rewrite bool_decide_true by (unfold Array_size; lia). simpl. decided.
  eexists. split_and!; try done.
  unfold gathered_handle. simpl. by rewrite last_snoc.
Qed.

Lemma new_graph_stores w imap map numcols items rest :
  inbox w = CreateGraph_messages imap numcols items ++ rest →
  0 ≤ imap → MAPS (registry w) !! Z.to_nat imap = Some map →
  length numcols = getNodeNumElements map →
  Forall (λ n, 0 ≤ n) numcols →
  foldr Z.add 0 numcols = Array_size items → Array_size items < 2 ^ 31 →
  ∃ w' g, new_graph w = Ok tt w' ∧
    registry w' =
      {| VECTORS := VECTORS (registry w);
         MATRICES := MATRICES (registry w);
         MAPS := MAPS (registry w);
         GRAPHS := GRAPHS (registry w) ++ [g] |} ∧
    graph_map g = map ∧ graph_fillComplete g = true ∧
    length (graph_rows g) = getNodeNumElements map ∧
    vector_heap w' = vector_heap w ∧ inbox w' = rest ∧
    gathered_handle w' = Some (to_int (Array_size (GRAPHS (registry w)))).
Proof.
  intros Hin Hi Hm Hn Hpos Hsum Hlt.
  assert (count_items numcols 0 = Array_size items) as Hcount.
  { rewrite count_items_sum; [lia|done|lia|lia]. }
  destruct (proj2 (insert_rows_is_Some numcols 0 items 0
                     (graph_new map numcols)
                     ltac:(unfold Array_size; lia))) as [graph Hins];
    [split; [done|lia]|].
  destruct (new_graph_run w imap map numcols items graph rest)
    as [w' Hrun]; try done; [unfold Array_size; lia|].
  pose proof (new_graph_effect w) as E. rewrite Hrun in E.
  destruct E as (imap'&m'&numcols'&items'&graph'&rest'&Hin'&_&Hm'&_&_&Hins'
                 &Hreg&Hheap&Hrest&_&_&Htr).
  rewrite Hin in Hin'. injection Hin' as <- <- <- <-.
  assert (m' = map) as -> by congruence.
  assert (graph' = graph) as -> by congruence.
  apply insert_rows_slices in Hins. 
  pose proof (insert_slices_shape 0
    (row_slices numcols (drop (Z.to_nat 0) items)) (graph_new map numcols))
    as [Hmap Hrows].
  rewrite <-Hins in Hmap, Hrows.
  exists w', (fillComplete graph). split_and!; try done.
  - simpl. rewrite Hrows. simpl. by rewrite length_replicate.
  - eapply gathered_handle_last; [exact Htr|done].
Qed.


(** ** The modes of [main] *)

Lemma dispatch_quiet fuel w res :
  dispatch fuel w = Some res →
  cout (final res) = cout w ∧ comm_rank (final res) = comm_rank w.
Proof.
  revert w. induction fuel as [|fuel IH]; intros w; [done|].
  rewrite dispatch_step.
  destruct (inbox w) as [|[[|c [|c' l]]|l] rest] eqn:Hin;
    try (by intros [= <-]).
  case_bool_decide as Hc; [by intros [= <-]|].
  destruct (FTABLE_lookup c) as (handler & Hh & ->); [lia|].
  unfold mbind, P_bind, lift. cbv beta.
  pose proof (handler_footprint _ handler (code_received rest w) Hh)
    as (_ & _ & Hr & Hc').
  destruct (handler (code_received rest w)) as [[] w1|w1|f w1];
    simpl in Hr, Hc'.
  - intros Hrun. apply IH in Hrun as [-> ->]. done.
  - by intros [= <-].
  - by intros [= <-].
Qed.

(** X9: what [main] does by its arguments, the name of the program being
    the first.  With the one argument [eventloop] it prints nothing, its
    first step is [Init], and when it returns it returns 0.  With anything
    else it returns at once, whatever the state of the channel, and leaves
    all but the output as it was: with the one argument [info] it prints six
    lines and returns 0, and otherwise it prints the one line that names the
    program and the two modes, and returns 1. *)
Theorem main_modes fuel dm argv w :
  (∀ progname res,
     argv = [progname; "eventloop"%string] →
     main fuel dm argv w = Some res →
     cout (final res) = cout w ∧
     (∃ ops, trace (final res) = trace w ++ Init :: ops) ∧
     (∀ code w', res = Ok code w' → code = 0)) ∧
  (argv ≠ [] → (∀ progname, argv ≠ [progname; "eventloop"%string]) →
   ∃ code lines,
     main fuel dm argv w =
       Some (Ok code
               {| registry := registry w; vector_heap := vector_heap w;
                  comm_rank := comm_rank w; inbox := inbox w;
                  trace := trace w; cout := cout w ++ lines |}) ∧
     ((∃ progname, argv = [progname; "info"%string]) →
        code = 0 ∧ length lines = 6%nat) ∧
     ((∀ progname, argv ≠ [progname; "info"%string]) →
        code = 1 ∧
        lines = [("syntax: " +:+ hd "" argv +:+ " info|eventloop")%string])).
Proof.
  split.
  - intros progname res -> Hrun.
    rewrite main_eventloop in Hrun. unfold mbind at 1, P_bind in Hrun.
    rewrite eventloop_outcome in Hrun.
    destruct (dispatch fuel (add_trace Init w)) as [r|] eqn:Hd; [|done].
    pose proof (dispatch_quiet _ _ _ Hd) as [Hc _].
    pose proof (dispatch_trace _ _ _ Hd) as (ops & Ht & _).
    simpl in Hc, Ht. rewrite <-app_assoc in Ht. simpl in Ht.
    destruct r as [[] w1|w1|f w1]; simpl in *; unfold mret, P_ret in Hrun;
      simplify_eq/=.
    + split_and!; [done| |by intros ?? [= <- _]].
      exists (ops ++ [Disconnect; Finalize]).
      rewrite Ht, <-!app_assoc. done.
    + split_and!; [done|by exists ops|done].
    + split_and!; [done|by exists ops|done].
  - intros _ Hev. destruct w as [t h r i tr co].
    assert (usage argv {| registry := t; vector_heap := h; comm_rank := r;
                          inbox := i; trace := tr; cout := co |} =
      Some (Ok 1
        {| registry := t; vector_heap := h; comm_rank := r; inbox := i;
           trace := tr;
           cout := co ++
             [("syntax: " +:+ hd "" argv +:+ " info|eventloop")%string] |}))
      as Hu by done.
    destruct argv as [|progname [|mode [|? ?]]];
      try (eexists _, _; split_and!; [exact Hu|by intros [? ?]|done]).
    unfold main. case_bool_decide as Hinfo.
    + subst mode. eexists 0, _. split_and!.
      * exec. rewrite <-!app_assoc. simpl. reflexivity.
      * done.
      * intros Hne. by destruct (Hne progname).
    + case_bool_decide as Hloop; [subst mode; by destruct (Hev progname)|].
      eexists _, _. split_and!; [exact Hu| |done].
      intros [? [= _ ->]]. done.
Qed.

(** ** The loop ends *)

Lemma sum_items_not_blocked vec idx data w w' :
  sum_items vec idx data w ≠ Blocked w'.
Proof.
  revert data w. induction idx as [|i idx IH]; intros [|x data] w; try done.
  simpl. exec. destruct w as [t h r inb tr co]; simpl.
  destruct (h !! vec) as [v|]; [|done].
  destruct (sumIntoGlobalValue v i x) as [v'|]; [|done].
  simpl. apply IH.
Qed.

Lemma handler_blocked code (handler : M unit) w w' :
  FTABLE !! code = Some handler → handler w = Blocked w' → inbox w' = [].
Proof.
  intros Hh. destruct w as [t h r i tr co].
  destruct code as [|[|[|[|[|[|?]]]]]]; simplify_eq/=.
  - unfold new_matrix. exec. intros; cases; done.
  - unfold new_vector. exec. intros; cases; done.
  - unfold add_evec. exec. intros; cases; try done;
      by match goal with
         | H : sum_items _ _ _ _ = Blocked _ |- _ =>
             apply sum_items_not_blocked in H
         end.
  - unfold get_vector. exec. intros; cases; done.
  - unfold new_map. exec. intros; cases; done.
  - unfold new_graph. exec. intros; cases; done.
Qed.

Lemma dispatch_blocked fuel w w' :
  dispatch fuel w = Some (Blocked w') → inbox w' = [].
Proof.
  revert w. induction fuel as [|fuel IH]; intros w; [done|].
  rewrite dispatch_step.
  destruct (inbox w) as [|[[|c [|c' l]]|l] rest] eqn:Hin;
    try (by intros [= <-]); try done.
  case_bool_decide as Hc; [done|].
  destruct (FTABLE_lookup c) as (handler & Hh & ->); [lia|].
  unfold mbind, P_bind, lift. cbv beta.
  destruct (handler (code_received rest w)) as [[] w1|w1|f w1] eqn:Hrun.
  - apply IH.
  - intros [= <-]. by eapply handler_blocked.
  - done.
Qed.

Lemma dispatch_more fuel fuel' w res :
  (fuel ≤ fuel')%nat → dispatch fuel w = Some res →
  dispatch fuel' w = Some res.
Proof.
  revert fuel' w. induction fuel as [|fuel IH]; intros fuel' w Hle; [done|].
  destruct fuel' as [|fuel']; [lia|].
  rewrite !dispatch_step.
  destruct (inbox w) as [|[[|c [|c' l]]|l] rest] eqn:Hin; try done.
  case_bool_decide as Hc; [done|].
  unfold mbind, P_bind, lift. cbv beta.
  destruct (nth _ FTABLE _ (code_received rest w)) as [[] w1|w1|f w1];
    try done.
  apply IH. lia.
Qed.

(** X10: on any finite sequence of messages the loop ends: with one unit of
    fuel more than there are messages [eventloop] has an outcome, and more
    fuel gives the same one.  The worker has then returned, or died of a
    fault, or read every message and waits for the next: it never waits
    while a message is left. *)
Theorem eventloop_ends fuel progname w :
  (length (inbox w) < fuel)%nat →
  ∃ res,
    eventloop fuel progname w = Some res ∧
    (∀ fuel', (fuel ≤ fuel')%nat → eventloop fuel' progname w = Some res) ∧
    (∀ w', res = Blocked w' → inbox w' = []).
Proof.
  intros Hlen.
  destruct (dispatch_total fuel (add_trace Init w)) as [r Hd]; [done|].
  exists (match r with
          | Ok _ w' => Ok tt (add_trace Finalize (add_trace Disconnect w'))
          | other => other
          end).
  split_and!.
  - rewrite eventloop_outcome, Hd. by destruct r.
  - intros fuel' Hle. rewrite eventloop_outcome.
    rewrite (dispatch_more _ _ _ _ Hle Hd). by destruct r.
  - intros w' Hres. destruct r as [[] w1|w1|f w1]; simplify_eq.
    by eapply dispatch_blocked.
Qed.

(** ** What a run keeps *)

Lemma keeps_same w w' :
  registry w' = registry w → vector_heap w' = vector_heap w → keeps w w'.
Proof.
  intros Hr Hh. split; [rewrite Hr; apply extends_refl|].
  intros p v Hv. rewrite Hh. eauto.
Qed.

Lemma keeps_trans w1 w2 w3 : keeps w1 w2 → keeps w2 w3 → keeps w1 w3.
Proof.
  intros [(E1&E2&E3&E4) H12] [(F1&F2&F3&F4) H23]. split.
  - split_and!; by etrans.
  - intros p v Hv. destruct (H12 p v Hv) as (v2 & Hv2 & Hm2 & Hl2).
    destruct (H23 p v2 Hv2) as (v3 & Hv3 & Hm3 & Hl3).
    exists v3. split_and!; [done|congruence|congruence].
Qed.

Lemma keeps_appended w w' code :
  appended code (registry w) (registry w') →
  vector_heap w `prefix_of` vector_heap w' → keeps w w'.
Proof.
  intros Ha Hp. split; [by eapply appended_extends|].
  intros p v Hv. exists v. split_and!; [|done..].
  by eapply prefix_lookup_Some.
Qed.

Lemma handler_keeps code (handler : M unit) w :
  FTABLE !! code = Some handler → keeps w (final (handler w)).
Proof.
  intros Hh. destruct code as [|[|[|[|[|[|?]]]]]]; simplify_eq/=.
  - pose proof (new_matrix_effect w) as E.
    destruct (new_matrix w); simpl; [|apply keeps_same; apply E..].
    destruct E as (?&?&?&?&?&?&Hr&Hv&?).
    apply (keeps_appended _ _ 0); [rewrite Hr; by eexists|by rewrite Hv].
  - pose proof (new_vector_effect w) as E.
    destruct (new_vector w); simpl; [|apply keeps_same; apply E..].
    destruct E as (?&?&?&?&?&?&Hr&Hv&?).
    apply (keeps_appended _ _ 1);
      [rewrite Hr; by eexists|rewrite Hv; by apply prefix_app_r].
  - split; [rewrite add_evec_registry; apply extends_refl|].
    apply (add_evec_heap_inv (λ h, ∀ p v, vector_heap w !! p = Some v →
      ∃ v', h !! p = Some v' ∧ vector_map v' = vector_map v ∧
        length (vector_data v') = length (vector_data v))); [by eauto|].
    intros _ _ _ vec _ _ _ h v i x v' HQ Hvec Hsum p v0 Hv0.
    destruct (HQ p v0 Hv0) as (v1 & Hv1 & Hm1 & Hl1).
    destruct (decide (p = vec)) as [->|Hne].
    + exists v'. apply sumIntoGlobalValue_shape in Hsum as [Hm Hl].
      split_and!; [|congruence|congruence].
      apply list_lookup_insert_eq. by apply lookup_lt_Some in Hvec.
    + exists v1. by rewrite list_lookup_insert_ne.
  - pose proof (get_vector_effect w) as E.
    destruct (get_vector w); simpl; [|apply keeps_same; apply E..].
    destruct E as (?&?&?&?&?&?&?&?&Hr&Hv&?). by apply keeps_same.
  - pose proof (new_map_effect w) as E.
    destruct (new_map w); simpl; [|apply keeps_same; apply E..].
    destruct E as (?&?&?&?&?&?&Hr&Hv&?).
    apply (keeps_appended _ _ 4); [rewrite Hr; by eexists|by rewrite Hv].
  - pose proof (new_graph_effect w) as E.
    destruct (new_graph w); simpl; [|apply keeps_same; apply E..].
    destruct E as (?&?&?&?&?&?&?&?&?&?&?&?&Hr&Hv&?).
    apply (keeps_appended _ _ 5); [rewrite Hr; by eexists|by rewrite Hv].
Qed.

Lemma dispatch_keeps fuel w res :
  dispatch fuel w = Some res → keeps w (final res).
Proof.
  revert w. induction fuel as [|fuel IH]; intros w; [done|].
  rewrite dispatch_step.
  destruct (inbox w) as [|[[|c [|c' l]]|l] rest] eqn:Hin;
    try (intros [= <-]; by apply keeps_same).
  case_bool_decide as Hc; [intros [= <-]; by apply keeps_same|].
  destruct (FTABLE_lookup c) as (handler & Hh & ->); [lia|].
  unfold mbind, P_bind, lift. cbv beta.
  pose proof (handler_keeps _ handler (code_received rest w) Hh) as Hk.
  assert (keeps w (code_received rest w)) as Hk0 by (by apply keeps_same).
  destruct (handler (code_received rest w)) as [[] w1|w1|f w1]; simpl in Hk.
  - intros Hrun. apply IH in Hrun. by do 2 (eapply keeps_trans; [|done]).
  - intros [= <-]. by eapply keeps_trans.
  - intros [= <-]. by eapply keeps_trans.
Qed.

(** X11: whatever the controller sends and however the session ends, a
    worker removes, replaces or moves nothing that it has stored: a handle
    that named a map, a graph, a matrix or a vector when [eventloop] was
    called names the same one at the end, and the vector is still over the
    same map, with as many entries. *)
Theorem stored_objects_persist fuel progname w res :
  eventloop fuel progname w = Some res →
  let w' := final res in
  (∀ h m, MAPS (registry w) !! h = Some m →
          MAPS (registry w') !! h = Some m) ∧
  (∀ h g, GRAPHS (registry w) !! h = Some g →
          GRAPHS (registry w') !! h = Some g) ∧
  (∀ h m, MATRICES (registry w) !! h = Some m →
          MATRICES (registry w') !! h = Some m) ∧
  (∀ h p v, VECTORS (registry w) !! h = Some p →
            vector_heap w !! p = Some v →
            VECTORS (registry w') !! h = Some p ∧
            ∃ v', vector_heap w' !! p = Some v' ∧
              vector_map v' = vector_map v ∧
              length (vector_data v') = length (vector_data v)).
Proof.
  intros Hrun w'.
  assert (keeps w w') as [(Ev & Em & Ema & Eg) Hheap].
  { rewrite eventloop_outcome in Hrun.
    destruct (dispatch fuel (add_trace Init w)) as [r|] eqn:Hd; [|done].
    apply dispatch_keeps in Hd.
    eapply keeps_trans; [by apply (keeps_same w (add_trace Init w))|].
    eapply keeps_trans; [exact Hd|].
    subst w'. destruct r as [[] w1|w1|f w1]; simplify_eq/=;
      by apply keeps_same. }
  split_and!.
  - intros h m Hm. by eapply prefix_lookup_Some.
  - intros h g Hg. by eapply prefix_lookup_Some.
  - intros h m Hm. by eapply prefix_lookup_Some.
  - intros h p v Hp Hv. split; [by eapply prefix_lookup_Some|by apply Hheap].
Qed.

End libmatrix.

(** * Concrete runs, with integer scalars *)


Lemma out_of_range_code_ends_session_witness :
  let w := start (scalar:=Z) 1 [ints [255]] in
  inbox w = [ints [255]] ∧
  NTOKENS ≤ to_uchar 255 ∧
  main 1 LP64 ["libmatrix"; "eventloop"]%string w =
    Some (Ok 0 (add_trace Finalize (add_trace Disconnect
                  (code_received [] (add_trace Init w))))).
Proof.
  intros w.
  assert (NTOKENS ≤ to_uchar 255) as Hc by (vm_compute; discriminate).
  split_and!; [reflexivity|exact Hc|].
  destruct (out_of_range_code_ends_session 0 w 255 [] eq_refl)
    as (_ & H & _).
  destruct (H Hc) as (_ & _ & _ & _ & Hmain). apply Hmain.
Defined.

Lemma handlers_only_append_witness :
  let w := start (scalar:=Z) 0 [ints [4]; ints [2]; ints [0; 1]] in
  FTABLE !! 4%nat = Some new_map ∧
  extends (registry w) (registry (final (new_map w))).
Proof.
  intros w. split; [reflexivity|].
  apply (handlers_only_append 4 new_map w eq_refl).
Defined.

Lemma handles_count_up_from_zero_witness :
  let create_map := [ints [4]; ints [4]; ints [2]; ints [0; 1]] in
  let w0 := start (scalar:=Z) 0 (create_map ++ create_map ++ [ints [6]]) in
  ∃ hist w,
    registry w0 = empty_tables ∧
    4%nat ∈ creation_codes ∧
    session w0 hist w ∧
    Z.of_nat (table_length 4 (registry w0) + length (handles_of 4 hist))
      ≤ 2 ^ 31 ∧
    handles_of 4 hist = [Some 0; Some 1].
Proof.
  intros create_map w0.
  assert (∃ w1, round 4 w0 w1 ∧ gathered_handle w1 = Some 0 ∧
            ∃ w2, round 4 w1 w2 ∧ gathered_handle w2 = Some 1)
    as (w1 & Hr1 & Hg1 & w2 & Hr2 & Hg2).
  { eexists. split_and!.
    - eexists _, _, new_map. split_and!; [reflexivity..|].
      vm_compute. reflexivity.
    - reflexivity.
    - eexists. split.
      + eexists _, _, new_map. split_and!; [reflexivity..|].
        vm_compute. reflexivity.
      + reflexivity. }
  assert (session w0 [(4%nat, gathered_handle w1); (4%nat, gathered_handle w2)] w2)
    as Hs.
  { eapply session_round; [exact Hr1|].
    eapply session_round; [exact Hr2|]. apply session_nil. }
  assert (4%nat ∈ creation_codes) as Hc.
  { unfold creation_codes. rewrite !elem_of_cons. auto. }
  rewrite Hg1, Hg2 in Hs.
  assert (Z.of_nat (table_length 4 (registry w0) +
                    length (handles_of 4 [(4%nat, Some 0); (4%nat, Some 1)]))
          ≤ 2 ^ 31) as Hlen by (vm_compute; discriminate).
  eexists _, w2. split_and!; [reflexivity|exact Hc|exact Hs|exact Hlen|].
  destruct (handles_count_up_from_zero 4 w0 _ w2 Hc Hs Hlen) as (_ & _ & H).
  exact (H eq_refl).
Defined.




Lemma fresh_vector_reads_zero_witness :
  let m := {| map_size := 4; map_elementList := [2; 3];
              map_indexBase := indexBase |} in
  let w := {| registry := {| VECTORS := []; MATRICES := []; MAPS := [m];
                             GRAPHS := [] |};
              vector_heap := []; comm_rank := 1;
              inbox := worker_inbox (scalar:=Z) 1
                         (CreateVector 0 ++ ReadVector 0);
              trace := []; cout := [] |} in
  MAPS (registry w) !! Z.to_nat 0 = Some m ∧
  Array_size (VECTORS (registry w)) < 2 ^ 31 ∧
  ∃ w1 w', new_vector w = Ok tt w1 ∧ get_vector w1 = Ok tt w' ∧
    contribution w' = Some [0; 0].
Proof.
  intros m w.
  assert (Array_size (VECTORS (registry w)) < 2 ^ 31) as Hlen
    by (vm_compute; reflexivity).
  split_and!; [reflexivity|exact Hlen|].
  destruct (fresh_vector_reads_zero 1 w 0 m [] eq_refl (Z.le_refl 0) eq_refl
              Hlen eq_refl)
    as (w1 & vec & w' & H1 & _ & _ & _ & _ & H2 & H3 & _).
  by exists w1, w'.
Defined.

Lemma handlers_consume_in_order_witness :
  let w := start (scalar:=Z) 0 [ints [4]; ints [2]; ints [0; 1]; ints [6]] in
  FTABLE !! 4%nat = Some new_map ∧
  (∃ ops, trace (final (new_map w)) = trace w ++ ops ∧
     Forall is_exchange ops) ∧
  inbox (final (new_map w)) `suffix_of` inbox w ∧
  cout (final (new_map w)) = cout w.
Proof.
  intros w. split; [reflexivity|].
  destruct (handlers_consume_in_order 4 new_map w eq_refl)
    as (H1 & H2 & _ & H3).
  exact (conj H1 (conj H2 H3)).
Defined.

Lemma eventloop_trace_witness :
  let w := start (scalar:=Z) 0
             [ints [4]; ints [4]; ints [2]; ints [0; 1]; ints [6]] in
  ∃ w' ops,
    eventloop 2 "libmatrix" w = Some (Ok tt w') ∧
    Forall is_exchange ops ∧
    trace w' = trace w ++ [Init] ++ ops ++ [Disconnect; Finalize] ∧
    last ops = Some (Bcast MPI_CHAR 1).
Proof.
  intros w.
  assert (eventloop 2 "libmatrix" w =
            Some (Ok tt (final (default (Blocked w)
                                  (eventloop 2 "libmatrix" w))))) as Hrun
    by (vm_compute; reflexivity).
  destruct (eventloop_trace 2 "libmatrix" w _ Hrun) as (ops & Hops & Ht & Hl).
  exact (ex_intro _ _ (ex_intro _ ops (conj Hrun (conj Hops (conj Ht Hl))))).
Defined.

Lemma registries_stay_consistent_witness :
  let w := start (scalar:=Z) 0 [ints [4]; ints [2]; ints [0; 1]] in
  consistent w ∧ FTABLE !! 4%nat = Some new_map ∧
  consistent (final (new_map w)).
Proof.
  intros w.
  destruct (registries_stay_consistent (scalar:=Z)) as (H0 & H1 & _).
  split_and!; [apply H0|reflexivity|].
  exact (H1 4%nat new_map w eq_refl (H0 _ _)).
Defined.

Lemma read_vector_completes_witness :
  let m := {| map_size := 4; map_elementList := [2; 3];
              map_indexBase := indexBase |} in
  let v := {| vector_map := m; vector_data := [5; 7] |} in
  let w := {| registry := {| VECTORS := [0%nat]; MATRICES := []; MAPS := [m];
                             GRAPHS := [] |};
              vector_heap := [v]; comm_rank := 1;
              inbox := [ints (scalar:=Z) [0]]; trace := []; cout := [] |} in
  consistent w ∧
  0 ≤ 0 < Array_size (VECTORS (registry w)) ∧
  get_vector w =
    Ok tt (exchanged [Bcast MPI_HANDLE 1;
                      Gatherv MPI_SCALAR (doubles [5; 7])] [] w).
Proof.
  intros m v w.
  assert (consistent w) as Hc.
  { unfold consistent, vector_ok. simpl.
    split_and!; [reflexivity| |constructor|constructor].
    constructor; [|constructor].
    split; [reflexivity|apply elem_of_cons; left; reflexivity]. }
  assert (0 ≤ 0 < Array_size (VECTORS (registry w))) as Hr
    by (unfold Array_size; simpl; lia).
  split; [exact Hc|split; [exact Hr|]].
  destruct (read_vector_completes w 0 [] Hc eq_refl Hr) as (v' & Hv & Hrun & _).
  injection Hv as <-. exact Hrun.
Defined.

Lemma accumulate_touches_one_vector_witness :
  let m := {| map_size := 4; map_elementList := [2; 3];
              map_indexBase := indexBase |} in
  let w := {| registry := {| VECTORS := [0; 1]%nat; MATRICES := [];
                             MAPS := [m]; GRAPHS := [] |};
              vector_heap := [vector_new m; vector_new m]; comm_rank := 1;
              inbox := AccumulateVector_messages (scalar:=Z) 1 1 [2] [7];
              trace := []; cout := [] |} in
  consistent w ∧
  VECTORS (registry w) !! 0%nat = Some 0%nat ∧
  VECTORS (registry (final (add_evec w))) !! 0%nat = Some 0%nat ∧
  vector_heap (final (add_evec w)) !! 0%nat = Some (vector_new m) ∧
  vector_heap (final (add_evec w)) !! 1%nat =
    Some {| vector_map := m; vector_data := [7; 0] |}.
Proof.
  intros m w.
  assert (consistent w) as Hc.
  { unfold consistent, vector_ok. simpl.
    split_and!; [reflexivity| |constructor|constructor].
    repeat (constructor; [split; [reflexivity|apply elem_of_cons; left; reflexivity]|]).
    constructor. }
  assert (∀ rank rest, inbox w ≠ ints [rank] :: ints [Z.of_nat 0] :: rest)
    as Hother by (intros rank rest; simpl; discriminate).
  destruct (accumulate_touches_one_vector w 0 0 Hc eq_refl Hother)
    as [H1 H2].
  split_and!; [exact Hc|reflexivity|exact H1|exact H2|].
  vm_compute. reflexivity.
Defined.




Lemma main_modes_witness :
  let w := start (scalar:=Z) 0 [ints [6]] in
  (∃ res,
     main 1 LP64 ["libmatrix"; "eventloop"]%string w = Some res ∧
     cout (final res) = cout w ∧
     ∃ ops, trace (final res) = trace w ++ Init :: ops) ∧
  (∃ code lines,
     main 1 LP64 ["libmatrix"; "-h"]%string w =
       Some (Ok code
               {| registry := registry w; vector_heap := vector_heap w;
                  comm_rank := comm_rank w; inbox := inbox w;
                  trace := trace w; cout := cout w ++ lines |}) ∧
     code = 1 ∧ lines = ["syntax: libmatrix info|eventloop"%string]).
Proof.
  intros w. split.
  - assert (main 1 LP64 ["libmatrix"; "eventloop"]%string w =
              Some (default (Blocked w)
                      (main 1 LP64 ["libmatrix"; "eventloop"]%string w)))
      as Hrun by (vm_compute; reflexivity).
    destruct (main_modes 1 LP64 ["libmatrix"; "eventloop"]%string w)
      as [H _].
    destruct (H "libmatrix"%string _ eq_refl Hrun) as (Hc & Ht & _).
    exact (ex_intro _ _ (conj Hrun (conj Hc Ht))).
  - destruct (main_modes 1 LP64 ["libmatrix"; "-h"]%string w) as [_ H].
    assert (∀ progname : string,
              ["libmatrix"; "-h"]%string ≠ [progname; "eventloop"%string])
      as Hev by (intros progname; discriminate).
    assert (∀ progname : string,
              ["libmatrix"; "-h"]%string ≠ [progname; "info"%string])
      as Hinfo by (intros progname; discriminate).
    assert (["libmatrix"; "-h"]%string ≠ []) as Hargv by discriminate.
    destruct (H Hargv Hev) as (code & lines & Hrun & _ & Hu).
    destruct (Hu Hinfo) as [Hcode Hlines].
    exact (ex_intro _ code (ex_intro _ lines
             (conj Hrun (conj Hcode Hlines)))).
Defined.

Lemma eventloop_ends_witness :
  let w := start (scalar:=Z) 0 [ints [4]; ints [4]] in
  (length (inbox w) < 3)%nat ∧
  ∃ res,
    eventloop 3 "libmatrix" w = Some res ∧
    eventloop 10 "libmatrix" w = Some res ∧
    (∀ w', res = Blocked w' → inbox w' = []).
Proof.
  intros w.
  assert (length (inbox w) < 3)%nat as Hlen by (simpl; lia).
  split; [exact Hlen|].
  destruct (eventloop_ends 3 "libmatrix" w Hlen) as (res & Hrun & Hmore & Hb).
  assert (3 ≤ 10)%nat as Hle by lia.
  exact (ex_intro _ res (conj Hrun (conj (Hmore 10%nat Hle) Hb))).
Defined.

Lemma stored_objects_persist_witness :
  let m := {| map_size := 4; map_elementList := [2; 3];
              map_indexBase := indexBase |} in
  let w := {| registry := {| VECTORS := []; MATRICES := []; MAPS := [m];
                             GRAPHS := [] |};
              vector_heap := []; comm_rank := 1;
              inbox := [ints (scalar:=Z) [1]; ints [0]; ints [6]];
              trace := []; cout := [] |} in
  ∃ res,
    eventloop 2 "libmatrix" w = Some res ∧
    MAPS (registry w) !! 0%nat = Some m ∧
    MAPS (registry (final res)) !! 0%nat = Some m.
Proof.
  intros m w.
  assert (eventloop 2 "libmatrix" w =
            Some (default (Blocked w) (eventloop 2 "libmatrix" w))) as Hrun
    by (vm_compute; reflexivity).
  destruct (stored_objects_persist 2 "libmatrix" w _ Hrun) as (Hm & _).
  exact (ex_intro _ _ (conj Hrun (conj eq_refl (Hm 0%nat m eq_refl)))).
Defined.
